(** * Songs CRUD API over a key-value table

    A shallow embedding of [app/schemas.py], [app/crud.py] and the song
    endpoints of [app/main.py].  Python strings are the bytes of their
    UTF-8 encoding, Python dictionaries are finite maps, the DynamoDB table
    is a finite map from the partition key to the remaining attributes, and
    the [async] methods of [SongCRUD] are computations in a
    state-and-exception monad over a [World] that holds the table, the list
    of calls made to it and the randomness read by [uuid.uuid4()]. *)

From Stdlib Require Import ZArith NArith Ascii String.
From stdpp Require Import base option list gmap strings fin_maps.

Local Open Scope Z_scope.

(** ** Values *)

(** An attribute value of an item: a Python [str] or [int] (DynamoDB types
    S and N; a number read back from the table is a [Decimal], which Python
    compares equal to the [int] of the same value). *)
Inductive AttrValue :=
  | AttrS (s : string)
  | AttrN (z : Z).

#[global] Instance AttrValue_eq_dec : EqDecision AttrValue.
Proof. solve_decision. Defined.

(** An item is a Python [dict] from attribute names to values. *)
Abbreviation Item := (gmap string AttrValue).

(** A value of a JSON request body. *)
Inductive JValue :=
  | JNull
  | JBool (b : bool)
  | JInt (z : Z)
  | JStr (s : string).

#[global] Instance JValue_eq_dec : EqDecision JValue.
Proof. solve_decision. Defined.

(** ** [uuid.uuid4()] and [str(uuid)]

    [uuid4] reads 16 random bytes, forces the variant and version bits and
    [str] prints the 128-bit integer as 32 lower-case hexadecimal digits in
    groups of 8-4-4-4-12. *)

Definition hex_digit (d : N) : ascii :=
  match d with
  | 0 => "0" | 1 => "1" | 2 => "2" | 3 => "3" | 4 => "4" | 5 => "5"
  | 6 => "6" | 7 => "7" | 8 => "8" | 9 => "9" | 10 => "a" | 11 => "b"
  | 12 => "c" | 13 => "d" | 14 => "e" | _ => "f"
  end%N%char.

(** ['%0{width}x' % n], for [n] below [16 ^ width]. *)
Fixpoint hex (width : nat) (n : N) : string :=
  match width with
  | O => ""
  | S w => hex w (N.shiftr n 4) +:+ String (hex_digit (N.land n 15)) ""
  end.

Definition uuid4_int (random : N) : N :=
  let int := (random mod 2 ^ 128)%N in
  let int := N.ldiff int (N.shiftl 0xc000 48) in
  let int := N.lor int (N.shiftl 0x8000 48) in
  let int := N.ldiff int (N.shiftl 0xf000 64) in
  N.lor int (N.shiftl 4 76).

Definition uuid_str (int : N) : string :=
  let h := hex 32 int in
  String.substring 0 8 h +:+ "-" +:+ String.substring 8 4 h +:+ "-" +:+
  String.substring 12 4 h +:+ "-" +:+ String.substring 16 4 h +:+ "-" +:+
  String.substring 20 12 h.

(** ** The table

    The table [TBL_SONG] has the partition key [id] of type string
    ([create_table.py]).  It is kept as a map from the key to the other
    attributes of the item; every read gives the key attribute back with
    them.

    The operations below follow the behaviour DynamoDB and boto3 document
    for the five requests [crud.py] sends: reads see the last write,
    [put_item] replaces by key, [update_item] with [SET] changes the named
    attributes of the item (and creates the item when the key is new),
    [delete_item] hands back what it removed, [scan] comes in pages.  A
    partition key is a string of 1 to 2048 bytes, and the store refuses any
    other with a [ValidationException]; a number has at most 38 digits, and
    boto3 raises a signal of [decimal] for a longer one before it sends
    anything; an item has a largest size, which is left to the store. *)

Definition with_key (key : string) (attrs : Item) : Item :=
  <["id" := AttrS key]> attrs.

(** The strings the store takes as a partition key. *)
Definition holdable (key : string) : bool :=
  negb (bool_decide (key = "")) && (String.length key <=? 2048)%nat.

Definition Key : Type := { key : string | Is_true (holdable key) }.

Definition key_of (key : string) : option Key :=
  match decide (Is_true (holdable key)) with
  | left H => Some (key ↾ H)
  | right _ => None
  end.

(** The part of a map that the store can hold. *)
Definition held (t : gmap string Item) : gmap Key Item :=
  list_to_map (omap (λ kv, (λ key, (key, kv.2)) <$> key_of kv.1) (map_to_list t)).

(** What boto3 serialises as a number: [Decimal] in a context of 38 digits
    that traps [Rounded] and [Inexact]. *)
Definition within_38_digits (z : Z) : bool := Z.abs z <? 10 ^ 38.

Definition serializable (v : AttrValue) : bool :=
  match v with
  | AttrS _ => true
  | AttrN z => within_38_digits z
  end.

Definition sendable (values : Item) : Prop :=
  map_Forall (λ _ v, serializable v = true) values.

(** The response of [scan]: one page and, when more pages follow, the key
    to resume from. *)
Record ScanResponse := mkScanResponse {
  Items : list Item;
  LastEvaluatedKey : option string;
}.

(** A call of a method of the table. *)
Inductive Call :=
  | Scan (ExclusiveStartKey : option string)
  | PutItem (item : Item)
  | GetItem (key : string)
  | UpdateItem (key : string) (UpdateExpression : string)
      (ExpressionAttributeNames : gmap string string)
      (ExpressionAttributeValues : Item)
  | DeleteItem (key : string).

(** What the program runs against.  [rows] are the items of the table
    under their keys; [pager] is the store's own way of cutting a scan into
    pages and [fits] its limit on the size of an item; [outage n] says that
    the store fails the [n]-th call with an error of its own, [severed n]
    that the [n]-th call does not reach the store; [urandom] and [draws]
    are the random source of [uuid4]; [calls] records the calls made so
    far, oldest first. *)
Record World := mkWorld {
  rows : gmap Key Item;
  pager : gmap string Item → option string → ScanResponse;
  fits : Item → bool;
  outage : nat → bool;
  severed : nat → bool;
  urandom : nat → N;
  draws : nat;
  calls : list Call;
}.

(** The table, by the strings of its keys. *)
Definition table (w : World) : gmap string Item := kmap proj1_sig (rows w).

Definition set_table (t : gmap string Item) (w : World) : World :=
  mkWorld (held t) (pager w) (fits w) (outage w) (severed w) (urandom w)
    (draws w) (calls w).

Definition log_call (c : Call) (w : World) : World :=
  mkWorld (rows w) (pager w) (fits w) (outage w) (severed w) (urandom w)
    (draws w) (calls w ++ [c]).

Definition next_draw (w : World) : World :=
  mkWorld (rows w) (pager w) (fits w) (outage w) (severed w) (urandom w)
    (S (draws w)) (calls w).

(** ** Exceptions and the monad of the [async] methods

    [ClientError] is what the table raises for an error of the store, with
    the error code of the store; [BotoCoreError] stands for what it raises
    when the store is not reached ([EndpointConnectionError], a timeout)
    and [DecimalException] for the signals of [decimal] ([Rounded],
    [Inexact]) that boto3 raises for a number of more than 38 digits:
    neither is a [ClientError].
    [Exception] is what [SongCRUD] raises in the place of a [ClientError],
    with the fixed part of its message (the text of the cause that follows
    it is left out); [HTTPException] is raised by the endpoints.  In Python
    all of them are caught by [except Exception].  A computation returns a
    value, raises, or is still following cursors when its fuel ends. *)

Inductive Exn :=
  | ClientError (code : string)
  | BotoCoreError
  | DecimalException
  | Exception (msg : string)
  | HTTPException (status_code : nat) (detail : string).

Inductive Outcome (A : Type) :=
  | Return (a : A)
  | Raise (e : Exn)
  | Diverge.
Arguments Return {A} a.
Arguments Raise {A} e.
Arguments Diverge {A}.

Definition M (A : Type) : Type := World → Outcome A * World.

#[global] Instance M_ret : MRet M := λ A a w, (Return a, w).

#[global] Instance M_bind : MBind M := λ A B f m w,
  match m w with
  | (Return a, w') => f a w'
  | (Raise e, w') => (Raise e, w')
  | (Diverge, w') => (Diverge, w')
  end.

Definition raise {A} (e : Exn) : M A := λ w, (Raise e, w).

(** [try: body except ...: handler]; [handler e = None] when no [except]
    clause matches [e]. *)
Definition try_except {A} (body : M A) (handler : Exn → option (M A)) : M A :=
  λ w,
    match body w with
    | (Raise e, w') =>
        match handler e with
        | Some h => h w'
        | None => (Raise e, w')
        end
    | r => r
    end.

Definition except_ClientError {A} (h : M A) (e : Exn) : option (M A) :=
  match e with
  | ClientError _ => Some h
  | _ => None
  end.

(** ** Calls to the table

    Every call is recorded.  boto3 first serialises the values it is given
    and raises a signal of [decimal] for a number it cannot send, whatever
    the state of the store.  The request then fails with a [ClientError]
    when the store is out at that moment, with a [BotoCoreError] when the
    store is not reached, and with a [ClientError] again when the store
    rejects the request ([serve] gives [None]); a failed call changes
    nothing. *)

(** The values of a call that boto3 has to serialise as numbers. *)
Definition numbers (c : Call) : Item :=
  match c with
  | PutItem item => item
  | UpdateItem _ _ _ values => values
  | _ => ∅
  end.

Definition serializes (c : Call) : bool := bool_decide (sendable (numbers c)).

(** What becomes of a request on its way to the store and back. *)
Definition transport (w : World) : option Exn :=
  if outage w (length (calls w)) then Some (ClientError "ServiceUnavailable")
  else if severed w (length (calls w)) then Some BotoCoreError
  else None.

Definition request {A} (c : Call)
    (serve : gmap string Item → option (A * gmap string Item)) : M A :=
  λ w,
    let w' := log_call c w in
    match transport w, serializes c with
    | _, false => (Raise DecimalException, w')
    | Some e, true => (Raise e, w')
    | None, true =>
        match serve (table w) with
        | Some (a, t) => (Return a, set_table t w')
        | None => (Raise (ClientError "ValidationException"), w')
        end
    end.

(** [table.scan(ExclusiveStartKey=...)] *)
Definition scan (ExclusiveStartKey : option string) : M ScanResponse :=
  λ w, request (Scan ExclusiveStartKey)
         (λ t, Some (pager w t ExclusiveStartKey, t)) w.

(** [table.get_item(Key={'id': key})], then [response.get('Item')] *)
Definition get_item (key : string) : M (option Item) :=
  request (GetItem key)
    (λ t, if holdable key then Some (with_key key <$> t !! key, t) else None).

(** [table.put_item(Item=item)]: insert or replace by key.  The item must
    carry the key attribute as a string that can be a key, and be of a size
    the store takes. *)
Definition put_item (item : Item) : M unit :=
  λ w, request (PutItem item)
         (λ t, match item !! "id" with
               | Some (AttrS key) =>
                   if holdable key && fits w item
                   then Some (tt, <[key := delete "id" item]> t)
                   else None
               | _ => None
               end) w.

(** [table.delete_item(Key={'id': key}, ReturnValues="ALL_OLD")], then
    [response.get('Attributes')]: the item as it was, when there was one. *)
Definition delete_item (key : string) : M (option Item) :=
  request (DeleteItem key)
    (λ t, if holdable key then Some (with_key key <$> t !! key, delete key t)
          else None).

(** *** Update expressions

    [update_item] receives the expression as text, with the placeholders
    explained by the two maps that go with it.  The store reads
    [SET target = operand, ...], resolves every [#name] through
    [ExpressionAttributeNames] and every [:value] through
    [ExpressionAttributeValues], and answers [ValidationException] when a
    placeholder is undefined or unused, when a target is the key
    attribute, or when one of the two maps is passed empty
    ("ExpressionAttributeNames must not be empty": a request without
    placeholders has to leave the parameter out).  Only the shape of
    expression that [update_song] writes is read: [SET], clauses separated
    by [", "], each [target = :value]. *)

(** [s.split(sep)] *)
Fixpoint split_go (sep : string) (skip : nat) (cur s : string) : list string :=
  match s with
  | EmptyString => [cur]
  | String c s' =>
      match skip with
      | S n => split_go sep n cur s'
      | O =>
          if String.prefix sep s
          then cur :: split_go sep (String.length sep - 1) "" s'
          else split_go sep 0 (cur +:+ String c "") s'
      end
  end.

Definition split (sep s : string) : list string := split_go sep 0 "" s.

(** [sep.join(parts)] *)
Fixpoint join (sep : string) (parts : list string) : string :=
  match parts with
  | [] => ""
  | [p] => p
  | p :: rest => p +:+ sep +:+ join sep rest
  end.

Definition parse_set_clause (clause : string) : option (string * string) :=
  match split " = " clause with
  | [target; operand] => Some (target, operand)
  | _ => None
  end.

Definition parse_update_expression (e : string) : option (list (string * string)) :=
  if String.prefix "SET " e
  then mapM parse_set_clause
         (split ", " (String.substring 4 (String.length e - 4) e))
  else None.

Definition starts_with (mark : ascii) (token : string) : bool :=
  match token with
  | String c _ => bool_decide (c = mark)
  | EmptyString => false
  end.

Definition resolve_target (names : gmap string string) (target : string) : option string :=
  if starts_with "#" target then names !! target else Some target.

Definition resolve_clause (names : gmap string string) (values : Item)
    (clause : string * string) : option (string * AttrValue) :=
  attr ← resolve_target names clause.1;
  v ← values !! clause.2;
  if bool_decide (attr = "id") then None else Some (attr, v).

Definition apply_set (attrs : Item) (assignment : string * AttrValue) : Item :=
  <[assignment.1 := assignment.2]> attrs.

(** The assignments an update request asks for, when the store accepts
    it. *)
Definition resolve_update (UpdateExpression : string)
    (names : gmap string string) (values : Item)
    : option (list (string * AttrValue)) :=
  clauses ← parse_update_expression UpdateExpression;
  if bool_decide (names = ∅) || bool_decide (values = ∅) then None
  else if negb (bool_decide (dom names =
              list_to_set (filter (λ tg, starts_with "#" tg = true) clauses.*1)))
  then None
  else if negb (bool_decide (dom values = list_to_set clauses.*2)) then None
  else mapM (resolve_clause names values) clauses.

Definition serve_update_item (fits : Item → bool) (key : string)
    (UpdateExpression : string) (names : gmap string string) (values : Item)
    (t : gmap string Item) : option (option Item * gmap string Item) :=
  assignments ← resolve_update UpdateExpression names values;
  let attrs := foldl apply_set (default ∅ (t !! key)) assignments in
  if holdable key && fits (with_key key attrs)
  then Some (Some (with_key key attrs), <[key := attrs]> t)
  else None.

(** [table.update_item(Key={'id': key}, UpdateExpression=...,
    ExpressionAttributeNames=..., ExpressionAttributeValues=...,
    ReturnValues="ALL_NEW")], then [response.get('Attributes')].  An absent
    key is created by the store. *)
Definition update_item (key : string) (UpdateExpression : string)
    (names : gmap string string) (values : Item) : M (option Item) :=
  λ w, request (UpdateItem key UpdateExpression names values)
         (serve_update_item (fits w) key UpdateExpression names values) w.

(** ** [app/schemas.py]

    A request body is a JSON object.  A field is accepted when it has the
    JSON type the schema declares and meets the constraints of its [Field];
    keys the schema does not declare are ignored.  A JSON number without a
    fraction is the only value taken for an [int] here.  The length of a
    [str] is its number of characters: in UTF-8, the bytes that do not
    continue a character. *)

(** A byte [10xxxxxx]. *)
Definition continuation (c : ascii) : bool :=
  match c with
  | Ascii _ _ _ _ _ _ b6 b7 => b7 && negb b6
  end.

(** [len(s)] *)
Fixpoint characters (s : string) : nat :=
  match s with
  | EmptyString => 0
  | String c s' => (if continuation c then 0 else 1) + characters s'
  end%nat.

Definition str_constraints (min_length max_length : option nat) (s : string) : bool :=
  from_option (λ n, n <=? characters s)%nat true min_length &&
  from_option (λ n, characters s <=? n)%nat true max_length.

(** [name: str = Field(..., min_length=.., max_length=..)] *)
Definition required_str (min_length max_length : option nat)
    (v : option JValue) : option string :=
  match v with
  | Some (JStr s) => if str_constraints min_length max_length s then Some s else None
  | _ => None
  end.

(** [name: Optional[str] = Field(None, min_length=.., max_length=..)] *)
Definition optional_str (min_length max_length : option nat)
    (v : option JValue) : option (option string) :=
  match v with
  | None | Some JNull => Some None
  | Some (JStr s) =>
      if str_constraints min_length max_length s then Some (Some s) else None
  | _ => None
  end.

(** [plays: int = Field(default=.., ge=..)] *)
Definition defaulted_int (default ge : Z) (v : option JValue) : option Z :=
  match v with
  | None => Some default
  | Some (JInt z) => if ge <=? z then Some z else None
  | _ => None
  end.

(** [plays: Optional[int] = Field(None, ge=..)] *)
Definition optional_int (ge : Z) (v : option JValue) : option (option Z) :=
  match v with
  | None | Some JNull => Some None
  | Some (JInt z) => if ge <=? z then Some (Some z) else None
  | _ => None
  end.

Module SongCreate.
Record t := mk { name : string; path : string; plays : Z }.

Definition validate (body : gmap string JValue) : option t :=
  name ← required_str (Some 1%nat) (Some 200%nat) (body !! "name");
  path ← required_str None None (body !! "path");
  plays ← defaulted_int 0 0 (body !! "plays");
  Some (mk name path plays).
End SongCreate.

Module SongUpdate.
Record t := mk { name : option string; path : option string; plays : option Z }.

Definition validate (body : gmap string JValue) : option t :=
  name ← optional_str (Some 1%nat) (Some 200%nat) (body !! "name");
  path ← optional_str None None (body !! "path");
  plays ← optional_int 0 (body !! "plays");
  Some (mk name path plays).
End SongUpdate.

Definition to_json (v : AttrValue) : JValue :=
  match v with
  | AttrS s => JStr s
  | AttrN z => JInt z
  end.

Module SongResponse.
Record t := mk { id : string; name : string; path : string; plays : Z }.

(** Validation of a returned [dict] against the response model. *)
Definition validate (item : Item) : option t :=
  let body := to_json <$> item in
  name ← required_str (Some 1%nat) (Some 200%nat) (body !! "name");
  path ← required_str None None (body !! "path");
  plays ← defaulted_int 0 0 (body !! "plays");
  id ← required_str None None (body !! "id");
  Some (mk id name path plays).
End SongResponse.

(** ** [app/crud.py] *)

Definition uuid4 : M N :=
  λ w, (Return (uuid4_int (urandom w (draws w))), next_draw w).

(** Truth value of an [Optional[Dict]]: [None] and the empty dict are false. *)
Definition truthy (d : option Item) : bool :=
  match d with
  | Some item => negb (bool_decide (item = ∅))
  | None => false
  end.

Module SongCRUD.

(** The [while 'LastEvaluatedKey' in response] loop; [fuel] bounds the
    number of further pages that are fetched. *)
Fixpoint scan_loop (fuel : nat) (response : ScanResponse) (songs : list Item)
    : M (list Item) :=
  match LastEvaluatedKey response with
  | None => mret songs
  | Some key =>
      match fuel with
      | O => λ w, (Diverge, w)
      | S fuel' =>
          response' ← scan (Some key);
          scan_loop fuel' response' (songs ++ Items response')
      end
  end.

Definition get_all_songs (fuel : nat) : M (list Item) :=
  try_except
    (response ← scan None;
     scan_loop fuel response (Items response))
    (except_ClientError (raise (Exception "Failed to retrieve songs"))).

Definition create_song (song_data : SongCreate.t) : M Item :=
  try_except
    (u ← uuid4;
     let song_id := uuid_str u in
     let item : Item :=
       {[ "id" := AttrS song_id;
          "name" := AttrS (SongCreate.name song_data);
          "path" := AttrS (SongCreate.path song_data);
          "plays" := AttrN (SongCreate.plays song_data) ]} in
     _ ← put_item item;
     mret item)
    (except_ClientError (raise (Exception "Failed to create song"))).

Definition get_song_by_id (song_id : string) : M (option Item) :=
  try_except
    (song ← get_item song_id;
     mret song)
    (except_ClientError (raise (Exception "Failed to retrieve song"))).

(** The three structures the update expression is built in. *)
Record Builder := mkBuilder {
  update_expression_parts : list string;
  expression_attribute_names : gmap string string;
  expression_attribute_values : Item;
}.

Definition build (song_data : SongUpdate.t) : Builder :=
  let b := mkBuilder [] ∅ ∅ in
  let b :=
    match SongUpdate.name song_data with
    | Some name =>
        mkBuilder (update_expression_parts b ++ ["#name = :name"])
          (<["#name" := "name"]> (expression_attribute_names b))
          (<[":name" := AttrS name]> (expression_attribute_values b))
    | None => b
    end in
  let b :=
    match SongUpdate.path song_data with
    | Some path =>
        mkBuilder (update_expression_parts b ++ ["#path = :path"])
          (<["#path" := "path"]> (expression_attribute_names b))
          (<[":path" := AttrS path]> (expression_attribute_values b))
    | None => b
    end in
  match SongUpdate.plays song_data with
  | Some plays =>
      mkBuilder (update_expression_parts b ++ ["plays = :plays"])
        (expression_attribute_names b)
        (<[":plays" := AttrN plays]> (expression_attribute_values b))
  | None => b
  end.

Definition update_song (song_id : string) (song_data : SongUpdate.t)
    : M (option Item) :=
  try_except
    (existing_song ← get_song_by_id song_id;
     if negb (truthy existing_song) then mret None
     else
       let b := build song_data in
       if bool_decide (update_expression_parts b = []) then mret existing_song
       else
         let update_expression :=
           "SET " +:+ join ", " (update_expression_parts b) in
         updated_song ←
           update_item song_id update_expression
             (expression_attribute_names b) (expression_attribute_values b);
         mret updated_song)
    (except_ClientError (raise (Exception "Failed to update song"))).

Definition delete_song (song_id : string) : M (option Item) :=
  try_except
    (deleted_song ← delete_item song_id;
     mret deleted_song)
    (except_ClientError (raise (Exception "Failed to delete song"))).

End SongCRUD.

(** ** [app/main.py] *)

Module main.

(** [except HTTPException: raise] followed by [except Exception as e:
    raise HTTPException(500, detail)]. *)
Definition reraise_or_500 {A} (detail : string) (e : Exn) : option (M A) :=
  match e with
  | HTTPException _ _ => Some (raise e)
  | _ => Some (raise (HTTPException 500 detail))
  end.

(** [except Exception as e: raise HTTPException(500, detail)] alone. *)
Definition always_500 {A} (detail : string) (e : Exn) : option (M A) :=
  Some (raise (HTTPException 500 detail)).

Definition not_found (song_id : string) : Exn :=
  HTTPException 404 ("Song with ID " +:+ song_id +:+ " not found").

Definition get_songs (fuel : nat) : M (list Item) :=
  try_except
    (songs ← SongCRUD.get_all_songs fuel;
     mret songs)
    (always_500 "Failed to retrieve songs").

Definition create_song (song : SongCreate.t) : M Item :=
  try_except
    (created_song ← SongCRUD.create_song song;
     mret created_song)
    (always_500 "Failed to create song").

Definition get_song (song_id : string) : M Item :=
  try_except
    (song ← SongCRUD.get_song_by_id song_id;
     match song with
     | None => raise (not_found song_id)
     | Some song => mret song
     end)
    (reraise_or_500 "Failed to retrieve song").

Definition update_song (song_id : string) (song : SongUpdate.t) : M Item :=
  try_except
    (updated_song ← SongCRUD.update_song song_id song;
     match updated_song with
     | None => raise (not_found song_id)
     | Some updated_song => mret updated_song
     end)
    (reraise_or_500 "Failed to update song").

(** The body of a successful delete: [message] and [deleted_song]. *)
Definition delete_song (song_id : string) : M (string * Item) :=
  try_except
    (deleted_song ← SongCRUD.delete_song song_id;
     match deleted_song with
     | None => raise (not_found song_id)
     | Some deleted_song => mret ("Song deleted successfully", deleted_song)
     end)
    (reraise_or_500 "Failed to delete song").

(** [except Exception as e: raise HTTPException(503, "Service unhealthy")] *)
Definition unhealthy {A} (e : Exn) : option (M A) :=
  Some (raise (HTTPException 503 "Service unhealthy")).

(** [GET /] *)
Definition root : M (gmap string string) :=
  mret {[ "message" := "Songs CRUD API - DynamoDB Version";
          "status" := "healthy";
          "version" := "1.0.0" ]}.

(** [GET /health]: the listing is run as a probe of the store. *)
Definition health_check (fuel : nat) : M (gmap string string) :=
  try_except
    (_ ← SongCRUD.get_all_songs fuel;
     mret {[ "status" := "healthy";
             "database" := "connected";
             "timestamp" := "2024-01-01T00:00:00Z" ]})
    unhealthy.

(** [lifespan] up to its [yield]: the same probe at startup; a failure is
    logged and raised again. *)
Definition lifespan (fuel : nat) : M unit :=
  try_except
    (_ ← SongCRUD.get_all_songs fuel;
     mret ())
    (λ e, Some (raise e)).

End main.

(** ** The application: routing, validation and status codes *)

Inductive Content :=
  | Song (song : SongResponse.t)
  | Songs (songs : list SongResponse.t)
  | Deleted (message : string) (deleted_song : Item)
  | Detail (detail : string)
  | ValidationErrors
  | InternalError (error : string).

Record Response := mkResponse {
  status_code : nat;
  content : Content;
}.

(** [general_exception_handler] *)
Definition general_exception_handler : Response :=
  mkResponse 500 (InternalError "Internal server error").

(** What the framework makes of an endpoint: the declared status and the
    value rendered through the response model on return, the status and
    detail of an [HTTPException], and the general handler for anything
    else, a value the response model refuses included. *)
Definition respond {A} (success : nat) (render : A → option Content)
    (endpoint : M A) : M Response :=
  λ w,
    match endpoint w with
    | (Return a, w') =>
        match render a with
        | Some c => (Return (mkResponse success c), w')
        | None => (Return general_exception_handler, w')
        end
    | (Raise (HTTPException status detail), w') =>
        (Return (mkResponse status (Detail detail)), w')
    | (Raise _, w') => (Return general_exception_handler, w')
    | (Diverge, w') => (Diverge, w')
    end.

Definition unprocessable : M Response :=
  mret (mkResponse 422 ValidationErrors).

Inductive Request :=
  | GET_songs
  | POST_songs (body : gmap string JValue)
  | GET_song (song_id : string)
  | PUT_song (song_id : string) (body : gmap string JValue)
  | DELETE_song (song_id : string).

Definition render_song (item : Item) : option Content :=
  Song <$> SongResponse.validate item.

Definition app (fuel : nat) (r : Request) : M Response :=
  match r with
  | GET_songs =>
      respond 200 (λ songs, Songs <$> mapM SongResponse.validate songs)
        (main.get_songs fuel)
  | POST_songs body =>
      match SongCreate.validate body with
      | Some song => respond 201 render_song (main.create_song song)
      | None => unprocessable
      end
  | GET_song song_id => respond 200 render_song (main.get_song song_id)
  | PUT_song song_id body =>
      match SongUpdate.validate body with
      | Some song => respond 200 render_song (main.update_song song_id song)
      | None => unprocessable
      end
  | DELETE_song song_id =>
      respond 200 (λ d, Some (Deleted d.1 d.2)) (main.delete_song song_id)
  end.

(** A sequence of requests served one after the other. *)
Fixpoint serve_all (fuel : nat) (rs : list Request) (w : World) : World :=
  match rs with
  | [] => w
  | r :: rs' => serve_all fuel rs' (app fuel r w).2
  end.

(** ** Vocabulary of the properties *)

(** The store is reached and up at the next call, respectively at every
    call. *)
Definition available (w : World) : Prop :=
  outage w (length (calls w)) || severed w (length (calls w)) = false.
Definition reliable (w : World) : Prop := ∀ n, outage w n || severed w n = false.

(** The identifier [uuid4] gives next. *)
Definition fresh_id (w : World) : string :=
  uuid_str (uuid4_int (urandom w (draws w))).

(** [rest] are the pages served after [response] by a store that answers
    a cursor with [page_at]: each one is asked for with the cursor of the
    one before, up to the first page without a cursor. *)
Fixpoint follows (page_at : option string → ScanResponse)
    (response : ScanResponse) (rest : list ScanResponse) : Prop :=
  match LastEvaluatedKey response, rest with
  | None, [] => True
  | Some key, next :: rest' =>
      next = page_at (Some key) ∧ follows page_at next rest'
  | _, _ => False
  end.

(** The cursors of a run of pages. *)
Definition cursors (pages : list ScanResponse) : list string :=
  omap LastEvaluatedKey pages.

(** A change set applied to the attributes of an item: a supplied field
    takes the new value, an omitted one keeps its own. *)
Definition set_field (attr : string) (v : option AttrValue) (attrs : Item) : Item :=
  match v with
  | Some v => <[attr := v]> attrs
  | None => attrs
  end.

Definition changed (song_data : SongUpdate.t) (attrs : Item) : Item :=
  set_field "plays" (AttrN <$> SongUpdate.plays song_data)
    (set_field "path" (AttrS <$> SongUpdate.path song_data)
       (set_field "name" (AttrS <$> SongUpdate.name song_data) attrs)).

(** The songs in a table, as reads return them. *)
Definition persisted (t : gmap string Item) : list Item :=
  (λ kv, with_key kv.1 kv.2) <$> map_to_list t.

(** The field constraints of the data model on one song. *)
Definition song_ok (item : Item) : bool :=
  match item !! "id", item !! "name", item !! "plays" with
  | Some (AttrS id), Some (AttrS name), Some (AttrN plays) =>
      negb (bool_decide (id = "")) && negb (bool_decide (name = "")) && (0 <=? plays)
  | _, _, _ => false
  end.

Definition invariant (t : gmap string Item) : Prop :=
  forallb song_ok (persisted t) = true ∧ NoDup ((.!! "id") <$> persisted t).

(** The item [create_song] builds for an identifier. *)
Definition new_song (song_id : string) (song_data : SongCreate.t) : Item :=
  {[ "id" := AttrS song_id;
     "name" := AttrS (SongCreate.name song_data);
     "path" := AttrS (SongCreate.path song_data);
     "plays" := AttrN (SongCreate.plays song_data) ]}.

(** The constraints of the schemas on a validated object. *)
Definition valid_create (song_data : SongCreate.t) : bool :=
  str_constraints (Some 1%nat) (Some 200%nat) (SongCreate.name song_data) &&
  (0 <=? SongCreate.plays song_data).

Definition valid_update (song_data : SongUpdate.t) : bool :=
  from_option (str_constraints (Some 1%nat) (Some 200%nat)) true
    (SongUpdate.name song_data) &&
  from_option (Z.leb 0) true (SongUpdate.plays song_data).

(** The number of a change set, if it has one, can be sent. *)
Definition plays_sendable (song_data : SongUpdate.t) : bool :=
  from_option within_38_digits true (SongUpdate.plays song_data).

(** The update request [update_song] sends for a change set, and what the
    store makes of it. *)
Definition update_expression (song_data : SongUpdate.t) : string :=
  "SET " +:+ join ", " (SongCRUD.update_expression_parts (SongCRUD.build song_data)).

Definition update_call (song_id : string) (song_data : SongUpdate.t) : Call :=
  UpdateItem song_id (update_expression song_data)
    (SongCRUD.expression_attribute_names (SongCRUD.build song_data))
    (SongCRUD.expression_attribute_values (SongCRUD.build song_data)).

Definition built (song_data : SongUpdate.t) : option (list (string * AttrValue)) :=
  resolve_update (update_expression song_data)
    (SongCRUD.expression_attribute_names (SongCRUD.build song_data))
    (SongCRUD.expression_attribute_values (SongCRUD.build song_data)).

Definition assignments (song_data : SongUpdate.t) : list (string * AttrValue) :=
  option_list (pair "name" ∘ AttrS <$> SongUpdate.name song_data) ++
  option_list (pair "path" ∘ AttrS <$> SongUpdate.path song_data) ++
  option_list (pair "plays" ∘ AttrN <$> SongUpdate.plays song_data).

(** What one request can do to the table. *)
Inductive table_step (w : World) : gmap string Item → Prop :=
  | step_same : table_step w (table w)
  | step_delete (song_id : string) : table_step w (delete song_id (table w))
  | step_create (song_data : SongCreate.t) :
      valid_create song_data = true →
      table_step w
        (<[fresh_id w := delete "id" (new_song (fresh_id w) song_data)]> (table w))
  | step_update (song_id : string) (attrs : Item) (song_data : SongUpdate.t) :
      valid_update song_data = true →
      table w !! song_id = Some attrs →
      table_step w (<[song_id := changed song_data attrs]> (table w)).

(** ** A store for the examples

    It serves a scan in pages of [limit] items, in the order of the map,
    and resumes after the key it is given. *)

Fixpoint after (key : string) (items : list (string * Item)) : list (string * Item) :=
  match items with
  | [] => []
  | kv :: rest => if bool_decide (kv.1 = key) then rest else after key rest
  end.

Definition page_of (limit : nat) (rest : list (string * Item)) : ScanResponse :=
  let page := take limit rest in
  mkScanResponse ((λ kv, with_key kv.1 kv.2) <$> page)
    (if bool_decide (length rest ≤ limit)%nat then None else fst <$> last page).

Definition page_by (limit : nat) (t : gmap string Item) (start : option string)
    : ScanResponse :=
  page_of limit
    match start with
    | None => map_to_list t
    | Some key => after key (map_to_list t)
    end.

Definition imagine : Item :=
  {[ "name" := AttrS "Imagine"; "path" := AttrS "https://x/imagine.mp3";
     "plays" := AttrN 0 ]}.

Definition yesterday : Item :=
  {[ "name" := AttrS "Yesterday"; "path" := AttrS "/music/yesterday.mp3";
     "plays" := AttrN 12 ]}.

(** The size of an item, by the rule of the DynamoDB guide: the bytes of
    the attribute names and of the strings, and up to 21 bytes for a
    number; an item can take 400 KB. *)
Definition attr_size (v : AttrValue) : N :=
  match v with
  | AttrS s => N.of_nat (String.length s)
  | AttrN _ => 21
  end.

Definition item_size (item : Item) : N :=
  map_fold (λ attr v size, N.of_nat (String.length attr) + attr_size v + size)%N
    0%N item.

Definition within_400KB (item : Item) : bool := (item_size item <=? 409600)%N.

Definition two_songs : World :=
  mkWorld (held {[ "s1" := imagine; "s2" := yesterday ]}) (page_by 1) within_400KB
    (λ _, false) (λ _, false) (λ n, N.of_nat n) 0 [].

Definition empty_world : World :=
  mkWorld ∅ (page_by 1) within_400KB (λ _, false) (λ _, false) (λ n, N.of_nat n) 0 [].

(** The request of the scenario: a name and a path, no [plays]. *)
Definition imagine_body : gmap string JValue :=
  {[ "name" := JStr "Imagine"; "path" := JStr "https://x/imagine.mp3" ]}.

Definition imagine_input : SongCreate.t :=
  SongCreate.mk "Imagine" "https://x/imagine.mp3" 0.

(** A create request that passes the schema with plays of 39 digits. *)
Definition many_plays_body : gmap string JValue :=
  {[ "name" := JStr "Imagine"; "path" := JStr "https://x/imagine.mp3";
     "plays" := JInt (10 ^ 38) ]}.

Definition many_plays : SongCreate.t :=
  SongCreate.mk "Imagine" "https://x/imagine.mp3" (10 ^ 38).

(** A name of 101 letters of two bytes each. *)
Definition accented_name : string := N.iter 101%N (String.app "é") "".

(** An identifier of 2049 bytes. *)
Definition long_key : string := N.iter 2049%N (String "a") "".

(** ** [app/database.py]

    [DynamoDBConfig] keeps the resource and the table handle once it has
    them.  The two calls into boto3 are recorded; [fails n] is what the
    [n]-th of them raises, if anything.  A handle is the name it was made
    for. *)

Module database.

Inductive Error :=
  | NoCredentialsError
  | ClientError (code : string)
  | ValueError (msg : string)
  | OtherError (msg : string).

Inductive Call :=
  | Resource (region_name : string)
  | Load (table_name : string).

Record DynamoDBConfig := mkConfig {
  region_name : string;
  table_name : string;
  _dynamodb_resource : option string;
  _table : option string;
}.

Record State := mkState {
  db_config : DynamoDBConfig;
  fails : nat → option Error;
  requests : list Call;
}.

Inductive Result (A : Type) :=
  | Ok (a : A)
  | Err (e : Error).
Arguments Ok {A} a.
Arguments Err {A} e.

(** [DynamoDBConfig.__init__], given [os.environ]. *)
Definition init (environ : gmap string string) : DynamoDBConfig :=
  mkConfig (default "us-east-1" (environ !! "AWS_REGION"))
    (default "TBL_SONG" (environ !! "DYNAMODB_TABLE_NAME")) None None.

Definition set_resource (r : option string) (s : State) : State :=
  mkState (mkConfig (region_name (db_config s)) (table_name (db_config s)) r
             (_table (db_config s)))
    (fails s) (requests s).

Definition set_table_handle (t : option string) (s : State) : State :=
  mkState (mkConfig (region_name (db_config s)) (table_name (db_config s))
             (_dynamodb_resource (db_config s)) t)
    (fails s) (requests s).

(** A call into boto3. *)
Definition boto3 (c : Call) (s : State) : Result unit * State :=
  let s' := mkState (db_config s) (fails s) (requests s ++ [c]) in
  match fails s (length (requests s)) with
  | Some e => (Err e, s')
  | None => (Ok (), s')
  end.

(** The property [dynamodb_resource]: both [except] clauses log and raise
    the exception again. *)
Definition dynamodb_resource (s : State) : Result string * State :=
  match _dynamodb_resource (db_config s) with
  | Some r => (Ok r, s)
  | None =>
      match boto3 (Resource (region_name (db_config s))) s with
      | (Ok _, s') =>
          (Ok (region_name (db_config s)),
           set_resource (Some (region_name (db_config s))) s')
      | (Err e, s') => (Err e, s')
      end
  end.

(** The property [table].  The handle is stored before [load] checks that
    the table exists. *)
Definition table (s : State) : Result (option string) * State :=
  match _table (db_config s) with
  | Some t => (Ok (Some t), s)
  | None =>
      let body :=
        match dynamodb_resource s with
        | (Ok _, s1) =>
            let s2 := set_table_handle (Some (table_name (db_config s1))) s1 in
            boto3 (Load (table_name (db_config s1))) s2
        | (Err e, s1) => (Err e, s1)
        end in
      match body with
      | (Ok _, s') => (Ok (_table (db_config s')), s')
      | (Err (ClientError code), s') =>
          if bool_decide (code = "ResourceNotFoundException")
          then (Err (ValueError ("Table " +:+ table_name (db_config s) +:+
                                 " does not exist")), s')
          else (Err (ClientError code), s')
      | (Err e, s') => (Err e, s')
      end
  end.

(** [get_table()] *)
Definition get_table (s : State) : Result (option string) * State := table s.

End database.

(** ** [create_table.py]

    The script runs against the tables of an account: [exists] are the
    tables there are, [backups] those with point-in-time recovery, and
    [faults n] is what the [n]-th request raises instead of being served.
    A table that is asked for and is not there is a [ClientError] with the
    code [ResourceNotFoundException]; creating one that is there is a
    [ClientError] with the code [ResourceInUseException]. *)

Module create_table.

Inductive Call :=
  | Resource (region_name : string)
  | Load (table_name : string)
  | CreateTable (table_name : string)
  | WaitUntilExists (table_name : string)
  | UpdateContinuousBackups (table_name : string).

Record Aws := mkAws {
  exists_ : gset string;
  backups : gset string;
  faults : nat → option database.Error;
  sent : list Call;
}.

Inductive Outcome (A : Type) :=
  | Done (a : A)
  | Raised (e : database.Error)
  | SystemExit (code : nat).
Arguments Done {A} a.
Arguments Raised {A} e.
Arguments SystemExit {A} code.

Record DynamoDBTableManager := mkManager {
  region_name : string;
  table_name : string;
}.

(** A request: recorded, then failed by the fault of the moment or served
    by [serve], which may refuse it with a [ClientError] code. *)
Definition send (c : Call) (serve : Aws → string + Aws) (a : Aws)
    : Outcome unit * Aws :=
  let logged (x : Aws) := mkAws (exists_ x) (backups x) (faults x) (sent a ++ [c]) in
  match faults a (length (sent a)) with
  | Some e => (Raised e, logged a)
  | None =>
      match serve a with
      | inl code => (Raised (database.ClientError code), logged a)
      | inr a' => (Done (), logged a')
      end
  end.

Definition resource (region : string) : Aws → Outcome unit * Aws :=
  send (Resource region) inr.

Definition load (name : string) : Aws → Outcome unit * Aws :=
  send (Load name)
    (λ a, if bool_decide (name ∈ exists_ a) then inr a
          else inl "ResourceNotFoundException").

Definition create (name : string) : Aws → Outcome unit * Aws :=
  send (CreateTable name)
    (λ a, if bool_decide (name ∈ exists_ a) then inl "ResourceInUseException"
          else inr (mkAws ({[name]} ∪ exists_ a) (backups a) (faults a) (sent a))).

Definition wait_until_exists (name : string) : Aws → Outcome unit * Aws :=
  send (WaitUntilExists name) inr.

Definition update_continuous_backups (name : string) : Aws → Outcome unit * Aws :=
  send (UpdateContinuousBackups name)
    (λ a, if bool_decide (name ∈ exists_ a)
          then inr (mkAws (exists_ a) ({[name]} ∪ backups a) (faults a) (sent a))
          else inl "TableNotFoundException").

(** [DynamoDBTableManager.__init__], given [os.environ]: any failure to
    connect ends the script with exit code 1. *)
Definition init (environ : gmap string string) (a : Aws)
    : Outcome DynamoDBTableManager * Aws :=
  let region := default "us-east-1" (environ !! "AWS_REGION") in
  let name := default "TBL_SONG" (environ !! "DYNAMODB_TABLE_NAME") in
  match resource region a with
  | (Done _, a') => (Done (mkManager region name), a')
  | (_, a') => (SystemExit 1, a')
  end.

Definition table_exists (self : DynamoDBTableManager) (a : Aws)
    : Outcome bool * Aws :=
  match load (table_name self) a with
  | (Done _, a') => (Done true, a')
  | (Raised (database.ClientError code), a') =>
      if bool_decide (code = "ResourceNotFoundException")
      then (Done false, a')
      else (Raised (database.ClientError code), a')
  | (Raised e, a') => (Raised e, a')
  | (SystemExit n, a') => (SystemExit n, a')
  end.

(** The body of the [try] of [create_table]. *)
Definition create_table_body (self : DynamoDBTableManager) (a : Aws)
    : Outcome bool * Aws :=
  match table_exists self a with
  | (Done true, a1) => (Done true, a1)
  | (Done false, a1) =>
      match create (table_name self) a1 with
      | (Done _, a2) =>
          match wait_until_exists (table_name self) a2 with
          | (Done _, a3) =>
              (* the failure of the optional step is a warning *)
              match update_continuous_backups (table_name self) a3 with
              | (SystemExit n, a4) => (SystemExit n, a4)
              | (_, a4) => (Done true, a4)
              end
          | (Raised e, a3) => (Raised e, a3)
          | (SystemExit n, a3) => (SystemExit n, a3)
          end
      | (Raised e, a2) => (Raised e, a2)
      | (SystemExit n, a2) => (SystemExit n, a2)
      end
  | (Raised e, a1) => (Raised e, a1)
  | (SystemExit n, a1) => (SystemExit n, a1)
  end.

(** [except ClientError] and [except Exception] both return [False]. *)
Definition create_table (self : DynamoDBTableManager) (a : Aws)
    : Outcome bool * Aws :=
  match create_table_body self a with
  | (Raised _, a') => (Done false, a')
  | r => r
  end.

(** [describe_table] loads the table to log its description; a
    [ClientError] is logged, anything else is raised. *)
Definition describe_table (self : DynamoDBTableManager) (a : Aws)
    : Outcome unit * Aws :=
  match load (table_name self) a with
  | (Raised (database.ClientError _), a') => (Done (), a')
  | r => r
  end.

Definition main (environ : gmap string string) (a : Aws) : Outcome unit * Aws :=
  match init environ a with
  | (Done manager, a1) =>
      match create_table manager a1 with
      | (Done true, a2) => describe_table manager a2
      | (Done false, a2) => (SystemExit 1, a2)
      | (Raised e, a2) => (Raised e, a2)
      | (SystemExit n, a2) => (SystemExit n, a2)
      end
  | (Raised e, a1) => (Raised e, a1)
  | (SystemExit n, a1) => (SystemExit n, a1)
  end.

(** The exit status of the script: 0 when [main] returns, the code of
    [sys.exit], 1 for an exception nobody caught. *)
Definition exit_status {A} (o : Outcome A) : nat :=
  match o with
  | Done _ => 0
  | Raised _ => 1
  | SystemExit n => n
  end.

End create_table.

(** ** Vocabulary of the further properties *)

(** The detail of the answer an endpoint gives when the store fails. *)
Definition failure_detail (r : Request) : string :=
  match r with
  | GET_songs => "Failed to retrieve songs"
  | POST_songs _ => "Failed to create song"
  | GET_song _ => "Failed to retrieve song"
  | PUT_song _ _ => "Failed to update song"
  | DELETE_song _ => "Failed to delete song"
  end.

(** The statuses a route answers with. *)
Definition statuses (r : Request) : list nat :=
  match r with
  | GET_songs => [200; 500]
  | POST_songs _ => [201; 422; 500]
  | GET_song _ => [200; 404; 500]
  | PUT_song _ _ => [200; 404; 422; 500]
  | DELETE_song _ => [200; 404; 500]
  end%nat.

(** The body of the request passes the schema of its route. *)
Definition accepted (r : Request) : bool :=
  match r with
  | POST_songs body => bool_decide (is_Some (SongCreate.validate body))
  | PUT_song _ body => bool_decide (is_Some (SongUpdate.validate body))
  | _ => true
  end.

(** The one key a request can write under, if any. *)
Definition target (w : World) (r : Request) : option string :=
  match r with
  | POST_songs _ => Some (fresh_id w)
  | PUT_song song_id _ | DELETE_song song_id => Some song_id
  | GET_songs | GET_song _ => None
  end.

(** Every persisted song passes the response model. *)
Definition renderable (t : gmap string Item) : Prop :=
  map_Forall (λ key attrs, is_Some (SongResponse.validate (with_key key attrs))) t.

(** The body of a healthy [GET /health]. *)
Definition healthy : gmap string string :=
  {[ "status" := "healthy"; "database" := "connected";
     "timestamp" := "2024-01-01T00:00:00Z" ]}.

(** What a call to the table can raise: a [ClientError], a
    [BotoCoreError] and, when [decimal] says so, the signal of
    [decimal]. *)
Definition from_boto3 (decimal : bool) (e : Exn) : Prop :=
  match e with
  | ClientError _ | BotoCoreError => True
  | DecimalException => decimal = true
  | _ => False
  end.

(** What a method of [SongCRUD] can raise: an [Exception] with one of its
    messages in the place of a [ClientError], and the other exceptions of
    the table as they are. *)
Definition from_service (msgs : list string) (decimal : bool) (e : Exn) : Prop :=
  match e with
  | Exception msg => msg ∈ msgs
  | BotoCoreError => True
  | DecimalException => decimal = true
  | _ => False
  end.

Definition raises_only {A} (msgs : list string) (decimal : bool) (o : Outcome A)
    : Prop :=
  match o with
  | Raise e => from_service msgs decimal e
  | _ => True
  end.

(** A store that fails every request. *)
Definition store_down (w : World) : World :=
  mkWorld (rows w) (pager w) (fits w) (λ _, true) (severed w) (urandom w)
    (draws w) (calls w).

(** A store that answers the first request and fails the second. *)
Definition fails_second (w : World) : World :=
  mkWorld (rows w) (pager w) (fits w) (λ n, bool_decide (n = S (length (calls w))))
    (severed w) (urandom w) (draws w) (calls w).

(** A store that cannot be reached. *)
Definition unreachable (w : World) : World :=
  mkWorld (rows w) (pager w) (fits w) (outage w) (λ _, true) (urandom w)
    (draws w) (calls w).

(** An account for the examples of the script, and a configuration that
    has not connected yet. *)
Definition no_faults : nat → option database.Error := λ _, None.

(** The [n]-th request fails with [e], the others are served. *)
Definition fault_at (n : nat) (e : database.Error) : nat → option database.Error :=
  λ m, if bool_decide (m = n) then Some e else None.

Definition fresh_account : create_table.Aws :=
  create_table.mkAws ∅ ∅ no_faults [].

Definition account_with_table : create_table.Aws :=
  create_table.mkAws {["TBL_SONG"]} ∅ no_faults [].

Definition songs_manager : create_table.DynamoDBTableManager :=
  create_table.mkManager "us-east-1" "TBL_SONG".

Definition fresh_state (fails : nat → option database.Error) : database.State :=
  database.mkState (database.init ∅) fails [].

(** A change of name and plays, and the two songs as the response model
    renders them. *)
Definition live_version : SongUpdate.t :=
  SongUpdate.mk (Some "Imagine (live)") None (Some 7).

Definition imagine_response : SongResponse.t :=
  SongResponse.mk "s1" "Imagine" "https://x/imagine.mp3" 0.

Definition yesterday_response : SongResponse.t :=
  SongResponse.mk "s2" "Yesterday" "/music/yesterday.mp3" 12.

(** * Proofs *)

(** ** Identifiers *)

Lemma uuid_str_nonempty (int : N) : uuid_str int ≠ "".
Proof.
  unfold uuid_str. destruct (String.substring 0 8 (hex 32 int)); discriminate.
Qed.

Lemma uuid_str_length (int : N) : String.length (uuid_str int) = 36%nat.
Proof.
  unfold uuid_str. cbv [hex String.app String.substring String.length].
  reflexivity.
Qed.

Lemma uuid_str_holdable (int : N) : holdable (uuid_str int) = true.
Proof.
  unfold holdable. rewrite uuid_str_length.
  by rewrite bool_decide_eq_false_2 by apply uuid_str_nonempty.
Qed.

(** ** Keys *)

Lemma key_of_Some (s : string) (key : Key) : key_of s = Some key ↔ `key = s.
Proof.
  unfold key_of. split.
  - destruct (decide _); [|done]. by intros [= <-].
  - intros <-. destruct key as [s H]. simpl. destruct (decide _) as [H'|]; [|done].
    f_equal. by apply (sig_eq_pi _).
Qed.

Lemma held_lookup (t : gmap string Item) (key : Key) : held t !! key = t !! `key.
Proof.
  unfold held. apply option_eq. intros v.
  rewrite <- elem_of_list_to_map.
  - rewrite list_elem_of_omap. split.
    + intros ([s a] & Hin & Hg). simpl in Hg.
      destruct (key_of s) as [k'|] eqn:Hk; simplify_eq/=.
      apply key_of_Some in Hk as <-. by apply elem_of_map_to_list in Hin.
    + intros Hl. exists (`key, v). split; [by apply elem_of_map_to_list|].
      simpl. by rewrite (proj2 (key_of_Some (`key) key) eq_refl).
  - apply (NoDup_fmap_1 proj1_sig).
    eapply sublist_NoDup; [apply (NoDup_fst_map_to_list t)|].
    induction (map_to_list t) as [|[s a] l IH]; simpl; [done|].
    destruct (key_of s) as [k'|] eqn:Hk; simpl.
    + apply key_of_Some in Hk as <-. by constructor.
    + by constructor.
Qed.

(** The keys of the table are keys the store can hold. *)
Lemma stored_holdable (w : World) (key : string) (attrs : Item) :
  table w !! key = Some attrs → holdable key = true.
Proof.
  unfold table. intros (k & -> & _)%lookup_kmap_Some; [|apply _].
  destruct k as [s H]. by apply Is_true_true.
Qed.

Lemma table_holdable (w : World) : map_Forall (λ key _, holdable key = true) (table w).
Proof. intros key attrs. apply stored_holdable. Qed.

Lemma table_set_table (t : gmap string Item) (w : World) :
  map_Forall (λ key _, holdable key = true) t → table (set_table t w) = t.
Proof.
  intros Ht. apply map_eq. intros s. unfold table, set_table. simpl.
  destruct (decide (Is_true (holdable s))) as [H|H].
  - etrans; [apply (lookup_kmap proj1_sig (held t) (s ↾ H))|].
    apply (held_lookup t (s ↾ H)).
  - transitivity (@None Item).
    + destruct (kmap _ _ !! s) eqn:Hl; [|done].
      apply lookup_kmap_Some in Hl as ([s' H'] & -> & _); [done|apply _].
    + destruct (t !! s) eqn:Hl; [|done]. apply Ht in Hl. by rewrite Hl in H.
Qed.

Lemma set_table_same (w : World) : set_table (table w) w = w.
Proof.
  destruct w as [m]. unfold set_table, table. simpl. f_equal.
  apply map_eq. intros key. by rewrite held_lookup, (lookup_kmap _).
Qed.

Lemma holdable_insert (w : World) (key : string) (attrs : Item) :
  holdable key = true →
  map_Forall (λ key _, holdable key = true) (<[key := attrs]> (table w)).
Proof. intros H. apply map_Forall_insert_2; [done|apply table_holdable]. Qed.

Lemma holdable_delete (w : World) (key : string) :
  map_Forall (λ key _, holdable key = true) (delete key (table w)).
Proof. apply map_Forall_delete, table_holdable. Qed.

(** ** Requests *)

Lemma serializes_true (c : Call) : sendable (numbers c) → serializes c = true.
Proof. apply bool_decide_eq_true_2. Qed.

Lemma serializes_false (c : Call) : ¬ sendable (numbers c) → serializes c = false.
Proof. apply bool_decide_eq_false_2. Qed.

Lemma serializes_sendable (c : Call) : serializes c = true → sendable (numbers c).
Proof. apply bool_decide_eq_true_1. Qed.

Lemma sendable_empty : sendable ∅.
Proof. apply map_Forall_empty. Qed.

Lemma available_up (w : World) :
  available w →
  outage w (length (calls w)) = false ∧ severed w (length (calls w)) = false.
Proof. apply orb_false_iff. Qed.

Lemma request_answered {A} (c : Call) serve (w : World) (a : A) t :
  available w → sendable (numbers c) → serve (table w) = Some (a, t) →
  request c serve w = (Return a, set_table t (log_call c w)).
Proof.
  intros [Ho Hs]%available_up Hn Ht. unfold request, transport.
  by rewrite serializes_true, Ho, Hs, Ht.
Qed.

(** A call that only reads leaves the world as it was, the record of the
    call apart. *)
Lemma request_read {A} (c : Call) serve (w : World) (a : A) :
  available w → sendable (numbers c) → serve (table w) = Some (a, table w) →
  request c serve w = (Return a, log_call c w).
Proof.
  intros Hw Hn Ht. rewrite (request_answered c serve w a (table w)) by done.
  f_equal. apply (set_table_same (log_call c w)).
Qed.

(** Whatever a request does, it leaves the table as it was or as [serve]
    makes it. *)
Lemma request_table {A} (c : Call) (serve : _ → option (A * _)) (w : World)
    (P : gmap string Item → Prop) :
  P (table w) →
  (∀ a t, serve (table w) = Some (a, t) →
     map_Forall (λ key _, holdable key = true) t ∧ P t) →
  P (table (request c serve w).2).
Proof.
  intros Hsame Hserve. unfold request.
  destruct (transport w), (serializes c); try done.
  destruct (serve (table w)) as [[a t]|] eqn:Hs; [|done].
  destruct (Hserve a t eq_refl) as [Ht HP]. simpl.
  by rewrite (table_set_table t (log_call c w)).
Qed.

Lemma scan_answered (w : World) (start : option string) :
  available w →
  scan start w = (Return (pager w (table w) start), log_call (Scan start) w).
Proof.
  intros Hw. unfold scan. by apply request_read; [|apply sendable_empty|].
Qed.

Lemma scan_table (start : option string) (w : World) :
  table (scan start w).2 = table w.
Proof.
  unfold scan. apply request_table; [done|]. intros a t [= _ <-].
  split; [apply table_holdable|done].
Qed.

Lemma with_key_stored (key : string) (item : Item) :
  item !! "id" = Some (AttrS key) → with_key key (delete "id" item) = item.
Proof. intros H. unfold with_key. by apply insert_delete_id. Qed.

Lemma with_key_truthy (key : string) (attrs : Item) :
  truthy (Some (with_key key attrs)) = true.
Proof.
  unfold truthy, with_key. rewrite bool_decide_eq_false_2; [done|].
  apply insert_non_empty.
Qed.

(** ** Where the world goes through [try], [bind] and the framework *)

Lemma respond_world {A} (success : nat) (render : A → option Content)
    (endpoint : M A) (w : World) :
  (respond success render endpoint w).2 = (endpoint w).2.
Proof.
  unfold respond. destruct (endpoint w) as [[a|[]|] w']; simpl; try done.
  by destruct (render a).
Qed.

Lemma try_except_world {A} (body : M A) (handler : Exn → option (M A)) (w : World) :
  (∀ e h w', handler e = Some h → (h w').2 = w') →
  (try_except body handler w).2 = (body w).2.
Proof.
  intros Hh. unfold try_except. destruct (body w) as [[a|e|] w']; simpl; try done.
  destruct (handler e) as [h|] eqn:He; [|done]. exact (Hh e h w' He).
Qed.

Lemma bind_world {A B} (m : M A) (f : A → M B) (w : World) :
  (∀ a w', (f a w').2 = w') → ((m ≫= f) w).2 = (m w).2.
Proof.
  intros Hf. unfold mbind, M_bind. by destruct (m w) as [[a|e|] w'].
Qed.

Lemma except_ClientError_world {A} (exn e : Exn) (h : M A) (w : World) :
  except_ClientError (raise exn) e = Some h → (h w).2 = w.
Proof. destruct e; simpl; intros; by simplify_eq. Qed.

Lemma reraise_or_500_world {A} (detail : string) (e : Exn) (h : M A) (w : World) :
  main.reraise_or_500 detail e = Some h → (h w).2 = w.
Proof. destruct e; simpl; intros; by simplify_eq. Qed.

Lemma always_500_world {A} (detail : string) (e : Exn) (h : M A) (w : World) :
  main.always_500 detail e = Some h → (h w).2 = w.
Proof. unfold main.always_500. intros; by simplify_eq. Qed.

(** ** Validation *)

Lemma required_str_Some (min_length max_length : option nat) (v : option JValue)
    (s : string) :
  required_str min_length max_length v = Some s →
  v = Some (JStr s) ∧ str_constraints min_length max_length s = true.
Proof.
  unfold required_str. destruct v as [[]|]; try done.
  destruct (str_constraints _ _ _) eqn:Hc; [|done]. intros; by simplify_eq.
Qed.

Lemma optional_str_Some (min_length max_length : option nat) (v : option JValue)
    (s : option string) :
  optional_str min_length max_length v = Some s →
  from_option (str_constraints min_length max_length) true s = true.
Proof.
  unfold optional_str. destruct v as [[]|]; try (intros; by simplify_eq).
  destruct (str_constraints _ _ _) eqn:Hc; [|done]. intros; by simplify_eq.
Qed.

Lemma defaulted_int_Some (default ge : Z) (v : option JValue) (z : Z) :
  defaulted_int default ge v = Some z →
  (v = None ∧ z = default) ∨ (v = Some (JInt z) ∧ ge ≤ z).
Proof.
  unfold defaulted_int. destruct v as [[| |z'|]|]; try done.
  - destruct (Z.leb_spec ge z'); [|done]. intros; simplify_eq. by right.
  - intros; simplify_eq. by left.
Qed.

Lemma optional_int_Some (ge : Z) (v : option JValue) (z : option Z) :
  optional_int ge v = Some z → from_option (Z.leb ge) true z = true.
Proof.
  unfold optional_int. destruct v as [[| |z'|]|]; try (intros; by simplify_eq).
  destruct (ge <=? z') eqn:Hc; [|done]. intros; by simplify_eq.
Qed.

Lemma validate_create_Some (body : gmap string JValue) (song : SongCreate.t) :
  SongCreate.validate body = Some song →
  body !! "name" = Some (JStr (SongCreate.name song)) ∧
  body !! "path" = Some (JStr (SongCreate.path song)) ∧
  (body !! "plays" = None ∧ SongCreate.plays song = 0 ∨
   body !! "plays" = Some (JInt (SongCreate.plays song))) ∧
  valid_create song = true.
Proof.
  unfold SongCreate.validate, valid_create. intros H.
  destruct (required_str _ _ (body !! "name")) as [n|] eqn:Hn; [|done].
  destruct (required_str _ _ (body !! "path")) as [p|] eqn:Hp; [|done].
  destruct (defaulted_int _ _ (body !! "plays")) as [z|] eqn:Hz; [|done].
  simplify_eq/=.
  apply required_str_Some in Hn as [-> ->], Hp as [-> _].
  apply defaulted_int_Some in Hz as [[-> ->]|[-> Hz]]; repeat split; auto.
  simpl. by apply Z.leb_le.
Qed.

Lemma validate_update_valid (body : gmap string JValue) (song : SongUpdate.t) :
  SongUpdate.validate body = Some song → valid_update song = true.
Proof.
  unfold SongUpdate.validate, valid_update. intros H.
  destruct (optional_str _ _ (body !! "name")) as [n|] eqn:Hn; [|done].
  destruct (optional_str _ _ (body !! "path")) as [p|] eqn:Hp; [|done].
  destruct (optional_int _ (body !! "plays")) as [z|] eqn:Hz; [|done].
  simplify_eq/=.
  apply optional_str_Some in Hn. apply optional_int_Some in Hz.
  by rewrite Hn, Hz.
Qed.

(** ** The service, call by call *)

Lemma get_song_by_id_answered (w : World) (song_id : string) :
  available w → holdable song_id = true →
  SongCRUD.get_song_by_id song_id w =
    (Return (with_key song_id <$> table w !! song_id), log_call (GetItem song_id) w).
Proof.
  intros Hw Hk. unfold SongCRUD.get_song_by_id, try_except, mbind, M_bind, get_item.
  erewrite request_read; [done|done|apply sendable_empty|by rewrite Hk].
Qed.

Lemma get_song_by_id_stored (w : World) (song_id : string) (attrs : Item) :
  available w → table w !! song_id = Some attrs →
  SongCRUD.get_song_by_id song_id w =
    (Return (Some (with_key song_id attrs)), log_call (GetItem song_id) w).
Proof.
  intros Hw Hk. rewrite get_song_by_id_answered by eauto using stored_holdable.
  by rewrite Hk.
Qed.

Lemma request_outage {A} (c : Call) (serve : _ → option (A * _)) (w : World) :
  sendable (numbers c) → outage w (length (calls w)) = true →
  request c serve w = (Raise (ClientError "ServiceUnavailable"), log_call c w).
Proof. intros Hn Ho. unfold request, transport. by rewrite serializes_true, Ho. Qed.

Lemma request_severed {A} (c : Call) (serve : _ → option (A * _)) (w : World) :
  sendable (numbers c) → outage w (length (calls w)) = false →
  severed w (length (calls w)) = true →
  request c serve w = (Raise BotoCoreError, log_call c w).
Proof.
  intros Hn Ho Hs. unfold request, transport. by rewrite serializes_true, Ho, Hs.
Qed.

(** A key the store cannot hold is refused. *)
Lemma request_refused {A} (c : Call) (serve : _ → option (A * _)) (w : World) :
  available w → sendable (numbers c) → serve (table w) = None →
  request c serve w = (Raise (ClientError "ValidationException"), log_call c w).
Proof.
  intros [Ho Hs]%available_up Hn Ht. unfold request, transport.
  by rewrite serializes_true, Ho, Hs, Ht.
Qed.

Lemma get_song_by_id_outage (w : World) (song_id : string) :
  outage w (length (calls w)) = true →
  SongCRUD.get_song_by_id song_id w =
    (Raise (Exception "Failed to retrieve song"), log_call (GetItem song_id) w).
Proof.
  intros Ho.
  unfold SongCRUD.get_song_by_id, try_except, mbind, M_bind, get_item.
  by rewrite request_outage by (done || apply sendable_empty).
Qed.

Lemma get_song_by_id_severed (w : World) (song_id : string) :
  outage w (length (calls w)) = false → severed w (length (calls w)) = true →
  SongCRUD.get_song_by_id song_id w =
    (Raise BotoCoreError, log_call (GetItem song_id) w).
Proof.
  intros Ho Hs.
  unfold SongCRUD.get_song_by_id, try_except, mbind, M_bind, get_item.
  by rewrite request_severed by (done || apply sendable_empty).
Qed.

Lemma get_song_by_id_refused (w : World) (song_id : string) :
  available w → holdable song_id = false →
  SongCRUD.get_song_by_id song_id w =
    (Raise (Exception "Failed to retrieve song"), log_call (GetItem song_id) w).
Proof.
  intros Hw Hk.
  unfold SongCRUD.get_song_by_id, try_except, mbind, M_bind, get_item.
  by rewrite request_refused by (done || apply sendable_empty || by rewrite Hk).
Qed.

Lemma update_song_absent (w : World) (song_id : string) (song_data : SongUpdate.t) :
  available w → holdable song_id = true → table w !! song_id = None →
  SongCRUD.update_song song_id song_data w = (Return None, log_call (GetItem song_id) w).
Proof.
  intros Hw Hh Hk. pose proof (get_song_by_id_answered w song_id Hw Hh) as Hget.
  rewrite Hk in Hget. unfold SongCRUD.update_song, try_except, mbind, M_bind.
  by rewrite Hget.
Qed.

(** With nothing to set, the existing item is returned after the lookup. *)
Lemma update_song_nothing_to_set (w : World) (song_id : string) (attrs : Item)
    (song_data : SongUpdate.t) :
  available w → table w !! song_id = Some attrs →
  SongCRUD.update_expression_parts (SongCRUD.build song_data) = [] →
  SongCRUD.update_song song_id song_data w =
    (Return (Some (with_key song_id attrs)), log_call (GetItem song_id) w).
Proof.
  intros Hw Hk Hparts. pose proof (get_song_by_id_stored w song_id attrs Hw Hk) as Hget.
  unfold SongCRUD.update_song, try_except, mbind, M_bind. rewrite Hget.
  cbv beta iota. rewrite with_key_truthy. simpl negb. cbv iota.
  by rewrite bool_decide_eq_true_2.
Qed.

(** With something to set, the update request is sent after the lookup. *)
Lemma update_song_existing (w : World) (song_id : string) (attrs : Item)
    (song_data : SongUpdate.t) :
  available w → table w !! song_id = Some attrs →
  SongCRUD.update_expression_parts (SongCRUD.build song_data) ≠ [] →
  SongCRUD.update_song song_id song_data w =
    try_except
      (updated_song ← update_item song_id (update_expression song_data)
          (SongCRUD.expression_attribute_names (SongCRUD.build song_data))
          (SongCRUD.expression_attribute_values (SongCRUD.build song_data));
       mret updated_song)
      (except_ClientError (raise (Exception "Failed to update song")))
      (log_call (GetItem song_id) w).
Proof.
  intros Hw Hk Hparts. pose proof (get_song_by_id_stored w song_id attrs Hw Hk) as Hget.
  unfold SongCRUD.update_song, try_except at 1, mbind at 1, M_bind at 1.
  rewrite Hget. cbv beta iota. rewrite with_key_truthy. simpl negb. cbv iota.
  by rewrite bool_decide_eq_false_2.
Qed.

(** *** What the store makes of the expressions [update_song] builds *)

Lemma built_with_names (song_data : SongUpdate.t) :
  is_Some (SongUpdate.name song_data) ∨ is_Some (SongUpdate.path song_data) →
  built song_data = Some (assignments song_data).
Proof.
  destruct song_data as [[n|] [p|] [z|]]; intros [[? H]|[? H]]; simplify_eq/=;
    vm_compute; reflexivity.
Qed.

(** With [plays] alone no [#name] is needed, and the map of names is sent
    empty: the store refuses the request. *)
Lemma built_plays_only (plays : Z) :
  built (SongUpdate.mk None None (Some plays)) = None.
Proof. vm_compute. reflexivity. Qed.

Lemma built_assignments (song_data : SongUpdate.t) (asg : list (string * AttrValue)) :
  built song_data = Some asg → asg = assignments song_data.
Proof. destruct song_data as [[n|] [p|] [z|]]; vm_compute; congruence. Qed.

Lemma foldl_assignments (song_data : SongUpdate.t) (attrs : Item) :
  foldl apply_set attrs (assignments song_data) = changed song_data attrs.
Proof. by destruct song_data as [[n|] [p|] [z|]]. Qed.

(** The values of the request can be sent when its number can. *)
Lemma sendable_values (song_data : SongUpdate.t) :
  sendable (SongCRUD.expression_attribute_values (SongCRUD.build song_data)) ↔
  plays_sendable song_data = true.
Proof.
  unfold sendable, plays_sendable. split.
  - intros H. destruct song_data as [n p [z|]]; [|done].
    apply (H ":plays" (AttrN z)). unfold SongCRUD.build. simpl.
    apply lookup_insert_eq.
  - intros H.
    destruct song_data as [[n|] [p|] [z|]]; unfold SongCRUD.build; simpl;
      repeat (apply map_Forall_insert_2; [done|]); apply map_Forall_empty.
Qed.

Lemma update_item_built (w : World) (song_id : string) (song_data : SongUpdate.t) :
  available w → plays_sendable song_data = true →
  update_item song_id (update_expression song_data)
    (SongCRUD.expression_attribute_names (SongCRUD.build song_data))
    (SongCRUD.expression_attribute_values (SongCRUD.build song_data)) w =
  match built song_data with
  | Some asg =>
      if holdable song_id &&
         fits w (with_key song_id
                   (foldl apply_set (default ∅ (table w !! song_id)) asg))
      then
        (Return (Some (with_key song_id
                         (foldl apply_set (default ∅ (table w !! song_id)) asg))),
         set_table
           (<[song_id := foldl apply_set (default ∅ (table w !! song_id)) asg]>
              (table w))
           (log_call (update_call song_id song_data) w))
      else
        (Raise (ClientError "ValidationException"),
         log_call (update_call song_id song_data) w)
  | None =>
      (Raise (ClientError "ValidationException"),
       log_call (update_call song_id song_data) w)
  end.
Proof.
  intros [Ho Hs]%available_up Hn.
  unfold update_item, request, transport, serve_update_item.
  rewrite serializes_true by (by apply sendable_values).
  rewrite Ho, Hs. fold (built song_data).
  destruct (built song_data) as [asg|]; [|done]. simpl.
  by destruct (holdable song_id && fits w _).
Qed.

(** A number of more than 38 digits stops the request in boto3. *)
Lemma update_item_unsendable (w : World) (song_id : string) (song_data : SongUpdate.t) :
  plays_sendable song_data = false →
  update_item song_id (update_expression song_data)
    (SongCRUD.expression_attribute_names (SongCRUD.build song_data))
    (SongCRUD.expression_attribute_values (SongCRUD.build song_data)) w =
  (Raise DecimalException, log_call (update_call song_id song_data) w).
Proof.
  intros Hn. unfold update_item, request.
  rewrite serializes_false; [by destruct (transport _)|].
  cbn [numbers]. rewrite sendable_values. by rewrite Hn.
Qed.

(** A change set that names [name] or [path] is applied as it stands. *)
Lemma update_song_with_names (w : World) (song_id : string) (attrs : Item)
    (song_data : SongUpdate.t) :
  reliable w → table w !! song_id = Some attrs →
  is_Some (SongUpdate.name song_data) ∨ is_Some (SongUpdate.path song_data) →
  plays_sendable song_data = true →
  fits w (with_key song_id (changed song_data attrs)) = true →
  SongCRUD.update_song song_id song_data w =
    (Return (Some (with_key song_id (changed song_data attrs))),
     set_table (<[song_id := changed song_data attrs]> (table w))
       (log_call (update_call song_id song_data) (log_call (GetItem song_id) w))).
Proof.
  intros Hw Hk Hd Hn Hf.
  rewrite (update_song_existing w song_id attrs); [|apply Hw|done|].
  - unfold try_except, mbind, M_bind.
    rewrite update_item_built by (done || apply Hw).
    rewrite built_with_names by done.
    change (table (log_call (GetItem song_id) w)) with (table w).
    change (fits (log_call (GetItem song_id) w)) with (fits w).
    rewrite Hk. simpl default. rewrite foldl_assignments, Hf.
    by rewrite (stored_holdable w song_id attrs).
  - destruct song_data as [[n|] [p|] [z|]]; destruct Hd as [[? H]|[? H]];
      by simplify_eq/=.
Qed.

(** ** The table after each request *)

Lemma scan_loop_table (fuel : nat) :
  ∀ response songs w,
    table (SongCRUD.scan_loop fuel response songs w).2 = table w.
Proof.
  induction fuel as [|fuel IH]; intros [its [key|]] songs w; simpl; try done.
  unfold mbind, M_bind. pose proof (scan_table (Some key) w) as Hs.
  destruct (scan (Some key) w) as [[r| |] w1]; simpl in *; try done.
  by rewrite IH.
Qed.

Lemma get_all_songs_table (fuel : nat) (w : World) :
  table (SongCRUD.get_all_songs fuel w).2 = table w.
Proof.
  unfold SongCRUD.get_all_songs.
  rewrite try_except_world by apply except_ClientError_world.
  unfold mbind, M_bind. pose proof (scan_table None w) as Hs.
  destruct (scan None w) as [[r| |] w1]; simpl in *; try done.
  by rewrite scan_loop_table.
Qed.

Lemma get_song_by_id_table (song_id : string) (w : World) :
  table (SongCRUD.get_song_by_id song_id w).2 = table w.
Proof.
  unfold SongCRUD.get_song_by_id.
  rewrite try_except_world by apply except_ClientError_world.
  rewrite bind_world by done. unfold get_item.
  apply request_table; [done|]. intros a t.
  destruct (holdable song_id); [|done]. intros [= _ <-].
  split; [apply table_holdable|done].
Qed.

Lemma create_song_step (song : SongCreate.t) (w : World) :
  valid_create song = true → table_step w (table (SongCRUD.create_song song w).2).
Proof.
  intros Hv. unfold SongCRUD.create_song.
  rewrite try_except_world by apply except_ClientError_world.
  unfold mbind at 1, M_bind at 1, uuid4. rewrite bind_world by done.
  unfold put_item. fold (fresh_id w). fold (new_song (fresh_id w) song).
  apply (request_table _ _ (next_draw w)); [exact (step_same w)|]. intros a t.
  unfold new_song at 1. rewrite lookup_insert_eq.
  destruct (holdable _ && _); [|done]. intros [= _ <-].
  split; [apply (holdable_insert w), uuid_str_holdable|].
  by apply (step_create w).
Qed.

Lemma delete_song_step (song_id : string) (w : World) :
  table_step w (table (SongCRUD.delete_song song_id w).2).
Proof.
  unfold SongCRUD.delete_song.
  rewrite try_except_world by apply except_ClientError_world.
  rewrite bind_world by done. unfold delete_item.
  apply request_table; [constructor|]. intros a t.
  destruct (holdable song_id); [|done]. intros [= _ <-].
  split; [apply holdable_delete|apply step_delete].
Qed.

Lemma update_song_step (song_id : string) (song : SongUpdate.t) (w : World) :
  valid_update song = true →
  table_step w (table (SongCRUD.update_song song_id song w).2).
Proof.
  intros Hv. destruct (outage w (length (calls w))) eqn:Ho.
  { unfold SongCRUD.update_song, try_except, mbind, M_bind.
    rewrite get_song_by_id_outage by done. exact (step_same w). }
  destruct (severed w (length (calls w))) eqn:Hs.
  { unfold SongCRUD.update_song, try_except, mbind, M_bind.
    rewrite get_song_by_id_severed by done. exact (step_same w). }
  assert (available w) as Hw by (unfold available; by rewrite Ho, Hs).
  destruct (holdable song_id) eqn:Hh.
  2:{ unfold SongCRUD.update_song, try_except, mbind, M_bind.
      rewrite get_song_by_id_refused by done. exact (step_same w). }
  destruct (table w !! song_id) as [attrs|] eqn:Hk;
    [|rewrite update_song_absent by done; exact (step_same w)].
  destruct (decide (SongCRUD.update_expression_parts (SongCRUD.build song) = []))
    as [Hparts|Hparts];
    [rewrite (update_song_nothing_to_set w song_id attrs) by done;
     exact (step_same w)|].
  rewrite (update_song_existing w song_id attrs) by done.
  rewrite try_except_world by apply except_ClientError_world.
  rewrite bind_world by done. unfold update_item.
  apply (request_table _ _ (log_call (GetItem song_id) w));
    [exact (step_same w)|]. intros a t.
  unfold serve_update_item. fold (built song).
  destruct (built song) as [asg|] eqn:Hb; [|done].
  apply built_assignments in Hb as ->. simpl.
  change (table (log_call (GetItem song_id) w)) with (table w).
  rewrite Hk. simpl.
  rewrite foldl_assignments. destruct (_ && _); [|done]. intros [= _ <-].
  split; [by apply holdable_insert|by apply (step_update w)].
Qed.

Lemma app_step (fuel : nat) (r : Request) (w : World) :
  table_step w (table (app fuel r w).2).
Proof.
  destruct r as [|body|song_id|song_id body|song_id]; simpl.
  - rewrite respond_world. unfold main.get_songs.
    rewrite try_except_world by apply always_500_world.
    rewrite bind_world by done. rewrite get_all_songs_table. constructor.
  - destruct (SongCreate.validate body) as [song|] eqn:Hv; [|constructor].
    apply validate_create_Some in Hv as (_ & _ & _ & Hv).
    rewrite respond_world. unfold main.create_song.
    rewrite try_except_world by apply always_500_world.
    rewrite bind_world by done. by apply create_song_step.
  - rewrite respond_world. unfold main.get_song.
    rewrite try_except_world by apply reraise_or_500_world.
    rewrite bind_world by (by intros []). rewrite get_song_by_id_table. constructor.
  - destruct (SongUpdate.validate body) as [song|] eqn:Hv; [|constructor].
    apply validate_update_valid in Hv.
    rewrite respond_world. unfold main.update_song.
    rewrite try_except_world by apply reraise_or_500_world.
    rewrite bind_world by (by intros []). by apply update_song_step.
  - rewrite respond_world. unfold main.delete_song.
    rewrite try_except_world by apply reraise_or_500_world.
    rewrite bind_world by (by intros []). apply delete_song_step.
Qed.

(** ** The invariant of the data model *)

Lemma persisted_ids_NoDup (t : gmap string Item) :
  NoDup ((.!! "id") <$> persisted t).
Proof.
  unfold persisted. rewrite <- list_fmap_compose.
  rewrite (list_fmap_ext _ ((Some ∘ AttrS) ∘ fst)).
  - rewrite list_fmap_compose.
    apply NoDup_fmap_2; [by intros ?? [=]|apply NoDup_fst_map_to_list].
  - intros i [k a] _. simpl. unfold with_key. by rewrite lookup_insert_eq.
Qed.

Lemma invariant_map_Forall (t : gmap string Item) :
  invariant t ↔ map_Forall (λ key attrs, song_ok (with_key key attrs) = true) t.
Proof.
  unfold invariant, persisted. rewrite map_Forall_to_list.
  rewrite forallb_forall, Forall_forall. split.
  - intros [H _] [k a] Hin. apply H. apply list_elem_of_In.
    apply (list_elem_of_fmap_2 (λ kv, with_key kv.1 kv.2) _ (k, a)). done.
  - intros H. split; [|apply persisted_ids_NoDup].
    intros item Hin%list_elem_of_In. apply list_elem_of_fmap in Hin as ([k a] & -> & Hin).
    by apply (H (k, a)).
Qed.

Lemma str_min_nonempty (max_length : option nat) (s : string) :
  str_constraints (Some 1%nat) max_length s = true → s ≠ "".
Proof. intros H ->. by destruct max_length. Qed.

Lemma new_song_ok (song_id : string) (song : SongCreate.t) :
  song_id ≠ "" → valid_create song = true → song_ok (new_song song_id song) = true.
Proof.
  unfold valid_create. intros Hid [Hn Hp]%andb_true_iff.
  apply str_min_nonempty in Hn. unfold song_ok, new_song.
  simplify_map_eq.
  rewrite !bool_decide_eq_false_2 by done. done.
Qed.

Lemma song_ok_with_key (song_id : string) (attrs : Item) :
  song_ok (with_key song_id attrs) =
    match attrs !! "name", attrs !! "plays" with
    | Some (AttrS name), Some (AttrN plays) =>
        negb (bool_decide (song_id = "")) && negb (bool_decide (name = "")) &&
        (0 <=? plays)
    | _, _ => false
    end.
Proof. unfold song_ok, with_key. by simplify_map_eq. Qed.

Lemma changed_name (song : SongUpdate.t) (attrs : Item) :
  changed song attrs !! "name" =
    from_option (Some ∘ AttrS) (attrs !! "name") (SongUpdate.name song).
Proof.
  unfold changed, set_field.
  destruct song as [[n|] [p|] [z|]]; simpl; by simplify_map_eq.
Qed.

Lemma changed_path (song : SongUpdate.t) (attrs : Item) :
  changed song attrs !! "path" =
    from_option (Some ∘ AttrS) (attrs !! "path") (SongUpdate.path song).
Proof.
  unfold changed, set_field.
  destruct song as [[n|] [p|] [z|]]; simpl; by simplify_map_eq.
Qed.

Lemma changed_plays (song : SongUpdate.t) (attrs : Item) :
  changed song attrs !! "plays" =
    from_option (Some ∘ AttrN) (attrs !! "plays") (SongUpdate.plays song).
Proof.
  unfold changed, set_field.
  destruct song as [[n|] [p|] [z|]]; simpl; by simplify_map_eq.
Qed.

Lemma changed_ok (song_id : string) (attrs : Item) (song : SongUpdate.t) :
  valid_update song = true → song_ok (with_key song_id attrs) = true →
  song_ok (with_key song_id (changed song attrs)) = true.
Proof.
  unfold valid_update. intros [Hn Hp]%andb_true_iff.
  rewrite !song_ok_with_key, changed_name, changed_plays.
  destruct (attrs !! "name") as [[name|]|], (attrs !! "plays") as [[|plays]|];
    try done; try (by destruct (SongUpdate.name song)).
  intros [[Hid Hname]%andb_true_iff Hplays]%andb_true_iff.
  destruct (SongUpdate.name song) as [n|], (SongUpdate.plays song) as [z|];
    simpl in *; rewrite Hid; simpl;
    try (apply str_min_nonempty in Hn; rewrite (bool_decide_eq_false_2 _ Hn));
    by rewrite ?Hname, ?Hplays, ?Hp.
Qed.

Lemma table_step_invariant (w : World) (t : gmap string Item) :
  invariant (table w) → table_step w t → invariant t.
Proof.
  rewrite !invariant_map_Forall. intros Hinv Hstep.
  destruct Hstep as [|song_id|song Hv|song_id attrs song Hv Hk].
  - done.
  - by apply map_Forall_delete.
  - apply map_Forall_insert_2; [|done].
    rewrite with_key_stored by apply lookup_insert_eq.
    apply new_song_ok; [apply uuid_str_nonempty|done].
  - apply map_Forall_insert_2; [|done].
    apply changed_ok; [done|]. by apply (Hinv song_id).
Qed.

Lemma app_invariant (fuel : nat) (r : Request) (w : World) :
  invariant (table w) → invariant (table (app fuel r w).2).
Proof. intros Hinv. eapply table_step_invariant; [done|apply app_step]. Qed.

(** ** Creation through the endpoint *)

(** The item of a song can be sent when its plays can. *)
Lemma sendable_new_song (song_id : string) (song : SongCreate.t) :
  sendable (new_song song_id song) ↔ within_38_digits (SongCreate.plays song) = true.
Proof.
  unfold sendable, new_song. split.
  - intros H. apply (H "plays" (AttrN (SongCreate.plays song))). by simplify_map_eq.
  - intros H. repeat (apply map_Forall_insert_2; [done|]). apply map_Forall_empty.
Qed.

Lemma create_song_answered (w : World) (song : SongCreate.t) :
  available w → within_38_digits (SongCreate.plays song) = true →
  fits w (new_song (fresh_id w) song) = true →
  SongCRUD.create_song song w =
    (Return (new_song (fresh_id w) song),
     set_table (<[fresh_id w := delete "id" (new_song (fresh_id w) song)]> (table w))
       (log_call (PutItem (new_song (fresh_id w) song)) (next_draw w))).
Proof.
  intros Hw Hn Hf.
  unfold SongCRUD.create_song, try_except, mbind, M_bind, uuid4, put_item.
  fold (fresh_id w). fold (new_song (fresh_id w) song).
  erewrite request_answered; [done|apply Hw|by apply sendable_new_song|].
  unfold new_song at 1. rewrite lookup_insert_eq.
  change (fits (next_draw w)) with (fits w). fold (new_song (fresh_id w) song).
  unfold fresh_id at 1. by rewrite uuid_str_holdable, Hf.
Qed.

(** A number of more than 38 digits stops the request in boto3: nothing is
    written, and what is raised is not a [ClientError]. *)
Lemma create_song_unsendable (w : World) (song : SongCreate.t) :
  within_38_digits (SongCreate.plays song) = false →
  SongCRUD.create_song song w =
    (Raise DecimalException,
     log_call (PutItem (new_song (fresh_id w) song)) (next_draw w)).
Proof.
  intros Hn.
  unfold SongCRUD.create_song, try_except, mbind, M_bind, uuid4, put_item.
  fold (fresh_id w). fold (new_song (fresh_id w) song).
  unfold request. rewrite serializes_false; [by destruct (transport _)|].
  cbn [numbers]. rewrite sendable_new_song. by rewrite Hn.
Qed.

Lemma render_new_song (song_id : string) (song : SongCreate.t) :
  valid_create song = true →
  render_song (new_song song_id song) =
    Some (Song (SongResponse.mk song_id (SongCreate.name song)
                  (SongCreate.path song) (SongCreate.plays song))).
Proof.
  unfold valid_create. intros [Hn Hp]%andb_true_iff.
  unfold render_song, SongResponse.validate, new_song.
  rewrite !lookup_fmap. simplify_map_eq. by rewrite Hn, Hp.
Qed.

Lemma post_songs_created (fuel : nat) (w : World) (body : gmap string JValue)
    (song : SongCreate.t) :
  SongCreate.validate body = Some song → available w →
  within_38_digits (SongCreate.plays song) = true →
  fits w (new_song (fresh_id w) song) = true →
  app fuel (POST_songs body) w =
    (Return (mkResponse 201
       (Song (SongResponse.mk (fresh_id w) (SongCreate.name song)
                (SongCreate.path song) (SongCreate.plays song)))),
     set_table (<[fresh_id w := delete "id" (new_song (fresh_id w) song)]> (table w))
       (log_call (PutItem (new_song (fresh_id w) song)) (next_draw w))).
Proof.
  intros Hv Hw Hn Hf. unfold app. rewrite Hv.
  apply validate_create_Some in Hv as (_ & _ & _ & Hv).
  unfold respond, main.create_song, try_except, mbind, M_bind, mret, M_ret.
  rewrite create_song_answered by done. cbv beta iota.
  by rewrite render_new_song.
Qed.

Lemma validate_ignores_id (body : gmap string JValue) (v : JValue) :
  SongCreate.validate (<["id" := v]> body) = SongCreate.validate body.
Proof. unfold SongCreate.validate. by rewrite !lookup_insert_ne. Qed.

(** * The claims *)

(** C1, as the code has it.  For every create input whose plays has at
    most 38 digits and whose item the store takes, [create_song] followed
    by [get_song_by_id] on the identifier of the returned item gives back
    that very item: the generated id with the name, path and plays of the
    input; the item is in the table under that id.  (The store is assumed
    to answer.) *)
Theorem create_then_get (w : World) (song_data : SongCreate.t) :
  reliable w →
  within_38_digits (SongCreate.plays song_data) = true →
  fits w (new_song (fresh_id w) song_data) = true →
  ∃ w1 w2,
    SongCRUD.create_song song_data w =
      (Return (new_song (fresh_id w) song_data), w1) ∧
    new_song (fresh_id w) song_data !! "id" = Some (AttrS (fresh_id w)) ∧
    with_key (fresh_id w) <$> table w1 !! fresh_id w =
      Some (new_song (fresh_id w) song_data) ∧
    SongCRUD.get_song_by_id (fresh_id w) w1 =
      (Return (Some (new_song (fresh_id w) song_data)), w2).
Proof.
  intros Hw Hn Hf. eexists _, _.
  rewrite create_song_answered by (done || apply Hw). split; [reflexivity|].
  split; [apply lookup_insert_eq|].
  rewrite get_song_by_id_answered by (apply Hw || apply uuid_str_holdable).
  rewrite table_set_table by apply (holdable_insert w), uuid_str_holdable.
  rewrite lookup_insert_eq. simpl.
  by rewrite with_key_stored by apply lookup_insert_eq.
Qed.

Lemma create_then_get_witness :
  reliable empty_world ∧
  within_38_digits (SongCreate.plays imagine_input) = true ∧
  fits empty_world (new_song (fresh_id empty_world) imagine_input) = true ∧
  ∃ w1 w2,
    SongCRUD.create_song imagine_input empty_world =
      (Return (new_song (fresh_id empty_world) imagine_input), w1) ∧
    new_song (fresh_id empty_world) imagine_input !! "id" =
      Some (AttrS (fresh_id empty_world)) ∧
    with_key (fresh_id empty_world) <$> table w1 !! fresh_id empty_world =
      Some (new_song (fresh_id empty_world) imagine_input) ∧
    SongCRUD.get_song_by_id (fresh_id empty_world) w1 =
      (Return (Some (new_song (fresh_id empty_world) imagine_input)), w2).
Proof.
  split; [intros n; reflexivity|]. split; [reflexivity|].
  split; [vm_compute; reflexivity|].
  apply (create_then_get empty_world imagine_input);
    [intros n; reflexivity|reflexivity|vm_compute; reflexivity].
Defined.

(** C1 does not hold for every input the schema accepts: with plays of 39
    digits boto3 raises a signal of [decimal] when it serialises the item,
    [create_song] raises it on, nothing is written and the endpoint answers
    500. *)
Lemma create_then_get_counterexample :
  SongCreate.validate many_plays_body = Some many_plays ∧
  valid_create many_plays = true ∧
  reliable empty_world ∧
  SongCRUD.create_song many_plays empty_world =
    (Raise DecimalException,
     log_call (PutItem (new_song (fresh_id empty_world) many_plays))
       (next_draw empty_world)) ∧
  (∀ item w1, SongCRUD.create_song many_plays empty_world ≠ (Return item, w1)) ∧
  table (SongCRUD.create_song many_plays empty_world).2 = ∅ ∧
  (SongCRUD.get_song_by_id (fresh_id empty_world)
     (SongCRUD.create_song many_plays empty_world).2).1 = Return None ∧
  (app 0 (POST_songs many_plays_body) empty_world).1 =
    Return (mkResponse 500 (Detail "Failed to create song")).
Proof.
  assert (SongCRUD.create_song many_plays empty_world =
    (Raise DecimalException,
     log_call (PutItem (new_song (fresh_id empty_world) many_plays))
       (next_draw empty_world))) as Hc
    by (by apply create_song_unsendable).
  split; [reflexivity|]. split; [reflexivity|]. split; [intros n; reflexivity|].
  split; [exact Hc|]. split; [intros item w1; by rewrite Hc|]. rewrite Hc.
  split; [reflexivity|].
  split.
  - rewrite get_song_by_id_answered; [reflexivity|reflexivity|apply uuid_str_holdable].
  - unfold app. change (SongCreate.validate many_plays_body) with (Some many_plays).
    unfold respond, main.create_song, try_except, mbind, M_bind. by rewrite Hc.
Qed.

(** C2, as the code has it.  For an existing song, an update that supplies
    [plays] alone is called with an empty map of attribute names; the store
    refuses it, [update_song] raises, the endpoint answers 500 and the song
    keeps its plays.  (For plays of more than 38 digits the call is stopped
    in boto3 already, and what [update_song] raises is the signal of
    [decimal].) *)
Theorem update_plays_only_fails (w : World) (song_id : string) (attrs : Item)
    (plays : Z) :
  reliable w → table w !! song_id = Some attrs →
  ∃ w',
    SongCRUD.update_song song_id (SongUpdate.mk None None (Some plays)) w =
      (Raise (if within_38_digits plays then Exception "Failed to update song"
              else DecimalException), w') ∧
    calls w' = calls w ++
      [GetItem song_id;
       UpdateItem song_id "SET plays = :plays" ∅ {[":plays" := AttrN plays]}] ∧
    table w' = table w ∧
    respond 200 render_song
      (main.update_song song_id (SongUpdate.mk None None (Some plays))) w =
      (Return (mkResponse 500 (Detail "Failed to update song")), w').
Proof.
  intros Hw Hk.
  assert (∃ w',
    SongCRUD.update_song song_id (SongUpdate.mk None None (Some plays)) w =
      (Raise (if within_38_digits plays then Exception "Failed to update song"
              else DecimalException), w') ∧
    calls w' = calls w ++
      [GetItem song_id;
       UpdateItem song_id "SET plays = :plays" ∅ {[":plays" := AttrN plays]}] ∧
    table w' = table w) as (w' & Hup & Hcalls & Htable).
  { eexists. rewrite (update_song_existing w song_id attrs) by (done || apply Hw).
    unfold try_except, mbind, M_bind.
    destruct (within_38_digits plays) eqn:Hn.
    - rewrite update_item_built by (done || apply Hw). rewrite built_plays_only.
      split; [reflexivity|]. split; [|reflexivity].
      simpl. by rewrite <- app_assoc.
    - rewrite update_item_unsendable by done.
      split; [reflexivity|]. split; [|reflexivity].
      simpl. by rewrite <- app_assoc. }
  exists w'. split; [done|]. split; [done|]. split; [done|].
  unfold respond, main.update_song, try_except, mbind, M_bind. rewrite Hup.
  by destruct (within_38_digits plays).
Qed.

Lemma update_plays_only_fails_witness :
  reliable two_songs ∧ table two_songs !! "s1" = Some imagine ∧
  ∃ w',
    SongCRUD.update_song "s1" (SongUpdate.mk None None (Some 5)) two_songs =
      (Raise (Exception "Failed to update song"), w') ∧
    calls w' = calls two_songs ++
      [GetItem "s1";
       UpdateItem "s1" "SET plays = :plays" ∅ {[":plays" := AttrN 5]}] ∧
    table w' = table two_songs ∧
    respond 200 render_song
      (main.update_song "s1" (SongUpdate.mk None None (Some 5))) two_songs =
      (Return (mkResponse 500 (Detail "Failed to update song")), w').
Proof.
  split; [intros n; reflexivity|]. split; [reflexivity|].
  apply (update_plays_only_fails two_songs "s1" imagine 5);
    [intros n; reflexivity|reflexivity].
Defined.

(** C3. For an existing song, an update with an empty change set returns
    the existing item, the one [get_song_by_id] gives before the update and
    after it; the only request sent is the lookup, and the table is as it
    was. *)
Theorem update_nothing (w : World) (song_id : string) (attrs : Item) :
  reliable w → table w !! song_id = Some attrs →
  ∃ w',
    SongCRUD.update_song song_id (SongUpdate.mk None None None) w =
      (Return (Some (with_key song_id attrs)), w') ∧
    calls w' = calls w ++ [GetItem song_id] ∧
    table w' = table w ∧
    (SongCRUD.get_song_by_id song_id w).1 = Return (Some (with_key song_id attrs)) ∧
    (SongCRUD.get_song_by_id song_id w').1 = Return (Some (with_key song_id attrs)).
Proof.
  intros Hw Hk. exists (log_call (GetItem song_id) w).
  rewrite (update_song_nothing_to_set w song_id attrs) by (done || apply Hw).
  rewrite (get_song_by_id_stored w song_id attrs) by (done || apply Hw).
  by rewrite (get_song_by_id_stored (log_call (GetItem song_id) w) song_id attrs)
    by (done || apply Hw).
Qed.

Lemma update_nothing_witness :
  reliable two_songs ∧ table two_songs !! "s2" = Some yesterday ∧
  ∃ w',
    SongCRUD.update_song "s2" (SongUpdate.mk None None None) two_songs =
      (Return (Some (with_key "s2" yesterday)), w') ∧
    calls w' = calls two_songs ++ [GetItem "s2"] ∧
    table w' = table two_songs ∧
    (SongCRUD.get_song_by_id "s2" two_songs).1 =
      Return (Some (with_key "s2" yesterday)) ∧
    (SongCRUD.get_song_by_id "s2" w').1 = Return (Some (with_key "s2" yesterday)).
Proof.
  split; [intros n; reflexivity|]. split; [reflexivity|].
  apply (update_nothing two_songs "s2" yesterday);
    [intros n; reflexivity|reflexivity].
Defined.

(** C4, as the code has it.  For an id that is not in the table and that
    the store takes as a key (1 to 2048 bytes), [update_song] sends the
    lookup and nothing else, returns [None] whatever the change set, and
    the endpoint answers 404. *)
Theorem update_absent (fuel : nat) (w : World) (song_id : string)
    (body : gmap string JValue) (song_data : SongUpdate.t) :
  available w → holdable song_id = true → table w !! song_id = None →
  SongUpdate.validate body = Some song_data →
  ∃ w',
    SongCRUD.update_song song_id song_data w = (Return None, w') ∧
    calls w' = calls w ++ [GetItem song_id] ∧
    table w' = table w ∧
    app fuel (PUT_song song_id body) w =
      (Return (mkResponse 404
         (Detail ("Song with ID " +:+ song_id +:+ " not found"))), w').
Proof.
  intros Hw Hh Hk Hv. exists (log_call (GetItem song_id) w).
  pose proof (update_song_absent w song_id song_data Hw Hh Hk) as Hup.
  split; [done|]. split; [done|]. split; [done|].
  unfold app. rewrite Hv.
  unfold respond, main.update_song, try_except, mbind, M_bind. by rewrite Hup.
Qed.

Lemma update_absent_witness :
  available two_songs ∧ holdable "s7" = true ∧ table two_songs !! "s7" = None ∧
  SongUpdate.validate {[ "plays" := JInt 1000 ]} =
    Some (SongUpdate.mk None None (Some 1000)) ∧
  ∃ w',
    SongCRUD.update_song "s7" (SongUpdate.mk None None (Some 1000)) two_songs =
      (Return None, w') ∧
    calls w' = calls two_songs ++ [GetItem "s7"] ∧
    table w' = table two_songs ∧
    app 0 (PUT_song "s7" {[ "plays" := JInt 1000 ]}) two_songs =
      (Return (mkResponse 404 (Detail ("Song with ID " +:+ "s7" +:+ " not found"))),
       w').
Proof.
  split; [reflexivity|]. split; [reflexivity|]. split; [reflexivity|].
  split; [reflexivity|].
  apply (update_absent 0 two_songs "s7" {[ "plays" := JInt 1000 ]}
           (SongUpdate.mk None None (Some 1000))); reflexivity.
Defined.

(** C4 does not hold for every absent id: for one of 2049 bytes the store
    refuses the lookup, [update_song] raises and the endpoint answers 500,
    not 404. *)
Lemma update_absent_counterexample :
  available two_songs ∧ table two_songs !! long_key = None ∧
  SongUpdate.validate {[ "plays" := JInt 1000 ]} =
    Some (SongUpdate.mk None None (Some 1000)) ∧
  SongCRUD.update_song long_key (SongUpdate.mk None None (Some 1000)) two_songs =
    (Raise (Exception "Failed to retrieve song"),
     log_call (GetItem long_key) two_songs) ∧
  app 0 (PUT_song long_key {[ "plays" := JInt 1000 ]}) two_songs =
    (Return (mkResponse 500 (Detail "Failed to update song")),
     log_call (GetItem long_key) two_songs).
Proof.
  assert (holdable long_key = false) as Hh by (vm_compute; reflexivity).
  assert (SongCRUD.update_song long_key (SongUpdate.mk None None (Some 1000))
            two_songs =
          (Raise (Exception "Failed to retrieve song"),
           log_call (GetItem long_key) two_songs)) as Hup.
  { unfold SongCRUD.update_song, try_except, mbind, M_bind.
    by rewrite get_song_by_id_refused. }
  split; [reflexivity|]. split.
  { destruct (table two_songs !! long_key) eqn:Hl; [|done].
    apply stored_holdable in Hl. congruence. }
  split; [reflexivity|]. split; [exact Hup|].
  unfold app.
  change (SongUpdate.validate {[ "plays" := JInt 1000 ]})
    with (Some (SongUpdate.mk None None (Some 1000))).
  unfold respond, main.update_song, try_except, mbind, M_bind. by rewrite Hup.
Qed.

(** C5. For a song in the table, [delete_song] returns the item as
    [get_song_by_id] gave it just before, and [get_song_by_id] on the same
    id afterwards finds nothing: the endpoint answers 404. *)
Theorem delete_then_get (w : World) (song_id : string) (attrs : Item) :
  reliable w → table w !! song_id = Some attrs →
  ∃ w1 w2,
    (SongCRUD.get_song_by_id song_id w).1 = Return (Some (with_key song_id attrs)) ∧
    SongCRUD.delete_song song_id w = (Return (Some (with_key song_id attrs)), w1) ∧
    SongCRUD.get_song_by_id song_id w1 = (Return None, w2) ∧
    respond 200 render_song (main.get_song song_id) w1 =
      (Return (mkResponse 404
         (Detail ("Song with ID " +:+ song_id +:+ " not found"))), w2).
Proof.
  intros Hw Hk.
  exists (set_table (delete song_id (table w)) (log_call (DeleteItem song_id) w)).
  eexists.
  pose proof (stored_holdable w song_id attrs Hk) as Hh.
  rewrite (get_song_by_id_stored w song_id attrs) by (done || apply Hw).
  split; [done|].
  split.
  { unfold SongCRUD.delete_song, try_except, mbind, M_bind, delete_item.
    erewrite request_answered;
      [|apply Hw|apply sendable_empty|by rewrite Hh]. by rewrite Hk. }
  assert (SongCRUD.get_song_by_id song_id
            (set_table (delete song_id (table w)) (log_call (DeleteItem song_id) w))
          = (Return None,
             log_call (GetItem song_id)
               (set_table (delete song_id (table w))
                  (log_call (DeleteItem song_id) w)))) as Hget.
  { rewrite get_song_by_id_answered by (done || apply Hw).
    rewrite table_set_table by apply holdable_delete.
    by rewrite lookup_delete_eq. }
  split; [exact Hget|].
  unfold respond, main.get_song, try_except, mbind, M_bind. by rewrite Hget.
Qed.

Lemma delete_then_get_witness :
  reliable two_songs ∧ table two_songs !! "s1" = Some imagine ∧
  ∃ w1 w2,
    (SongCRUD.get_song_by_id "s1" two_songs).1 = Return (Some (with_key "s1" imagine)) ∧
    SongCRUD.delete_song "s1" two_songs = (Return (Some (with_key "s1" imagine)), w1) ∧
    SongCRUD.get_song_by_id "s1" w1 = (Return None, w2) ∧
    respond 200 render_song (main.get_song "s1") w1 =
      (Return (mkResponse 404 (Detail ("Song with ID " +:+ "s1" +:+ " not found"))),
       w2).
Proof.
  split; [intros n; reflexivity|]. split; [reflexivity|].
  apply (delete_then_get two_songs "s1" imagine);
    [intros n; reflexivity|reflexivity].
Defined.

(** C6. A create request whose name is the empty string, or whose plays is
    negative, is refused by validation with status 422; the world is left
    as it was: no request reaches the table and nothing is written. *)
Theorem invalid_create_rejected (fuel : nat) (w : World)
    (body : gmap string JValue) :
  body !! "name" = Some (JStr "") ∨
    (∃ plays, body !! "plays" = Some (JInt plays) ∧ plays < 0) →
  SongCreate.validate body = None ∧
  app fuel (POST_songs body) w = (Return (mkResponse 422 ValidationErrors), w).
Proof.
  intros H.
  assert (SongCreate.validate body = None) as Hv.
  { unfold SongCreate.validate. destruct H as [-> | (plays & -> & Hneg)]; [done|].
    destruct (required_str _ _ (body !! "name")); [|done]. simpl.
    destruct (required_str _ _ (body !! "path")); [|done]. simpl.
    by destruct (Z.leb_spec 0 plays); [lia|]. }
  split; [done|]. simpl. by rewrite Hv.
Qed.

Lemma invalid_create_rejected_witness :
  (<["plays" := JInt (-1)]> imagine_body !! "name" = Some (JStr "") ∨
   ∃ plays, <["plays" := JInt (-1)]> imagine_body !! "plays" = Some (JInt plays) ∧
            plays < 0) ∧
  SongCreate.validate (<["plays" := JInt (-1)]> imagine_body) = None ∧
  app 0 (POST_songs (<["plays" := JInt (-1)]> imagine_body)) two_songs =
    (Return (mkResponse 422 ValidationErrors), two_songs).
Proof.
  assert (<["plays" := JInt (-1)]> imagine_body !! "name" = Some (JStr "") ∨
          ∃ plays, <["plays" := JInt (-1)]> imagine_body !! "plays" = Some (JInt plays) ∧
                   plays < 0) as H.
  { right. exists (-1). split; [reflexivity|lia]. }
  split; [exact H|].
  exact (invalid_create_rejected 0 two_songs (<["plays" := JInt (-1)]> imagine_body) H).
Defined.

(** ** Listing *)

Lemma scan_loop_pages (rest : list ScanResponse) :
  ∀ (fuel : nat) (response : ScanResponse) (songs : list Item) (w : World),
    reliable w →
    follows (pager w (table w)) response rest →
    (length rest ≤ fuel)%nat →
    ∃ w',
      SongCRUD.scan_loop fuel response songs w =
        (Return (songs ++ concat (Items <$> rest)), w') ∧
      calls w' = calls w ++ (Scan ∘ Some <$> cursors (response :: rest)) ∧
      table w' = table w.
Proof.
  induction rest as [|next rest IH]; intros fuel response songs w Hw Hf Hfuel.
  - destruct fuel, response as [its [key|]]; simpl in *; try done;
      exists w; by rewrite !app_nil_r.
  - destruct response as [its [key|]]; simpl in Hf; [|done].
    destruct Hf as [-> Hf]. destruct fuel as [|fuel]; simpl in Hfuel; [lia|].
    simpl. unfold mbind, M_bind. rewrite scan_answered by apply Hw.
    destruct (IH fuel (pager w (table w) (Some key))
                (songs ++ Items (pager w (table w) (Some key)))
                (log_call (Scan (Some key)) w))
      as (w' & Hrun & Hcalls & Htable); [apply Hw|exact Hf|lia|].
    exists w'. rewrite Hrun. split; [by rewrite <- app_assoc|].
    split; [|done]. rewrite Hcalls. unfold cursors. simpl.
    by rewrite <- app_assoc.
Qed.

(** C7. [get_all_songs] asks for the first page and then, cursor after
    cursor, for every page the store serves up to the first one without a
    cursor; it returns the items of these pages, concatenated in order,
    and nothing else.  One scan request is sent per page.  A single page
    without items gives the empty list. *)
Theorem get_all_songs_pages (fuel : nat) (w : World) (rest : list ScanResponse) :
  reliable w →
  follows (pager w (table w)) (pager w (table w) None) rest →
  (length rest ≤ fuel)%nat →
  ∃ w',
    SongCRUD.get_all_songs fuel w =
      (Return (concat (Items <$> pager w (table w) None :: rest)), w') ∧
    calls w' = calls w ++
      Scan None :: (Scan ∘ Some <$> cursors (pager w (table w) None :: rest)) ∧
    table w' = table w.
Proof.
  intros Hw Hf Hfuel.
  destruct (scan_loop_pages rest fuel (pager w (table w) None)
              (Items (pager w (table w) None)) (log_call (Scan None) w))
    as (w' & Hrun & Hcalls & Htable); [apply Hw|exact Hf|done|].
  exists w'. unfold SongCRUD.get_all_songs, try_except, mbind, M_bind.
  rewrite scan_answered by apply Hw. rewrite Hrun.
  split; [done|]. split; [|done]. rewrite Hcalls. simpl. by rewrite <- app_assoc.
Qed.

Lemma get_all_songs_pages_witness :
  reliable two_songs ∧
  follows (pager two_songs (table two_songs)) (pager two_songs (table two_songs) None)
    [page_by 1 (table two_songs) (Some "s1")] ∧
  (length [page_by 1 (table two_songs) (Some "s1")] ≤ 1)%nat ∧
  ∃ w',
    SongCRUD.get_all_songs 1 two_songs =
      (Return (concat (Items <$> pager two_songs (table two_songs) None ::
                                 [page_by 1 (table two_songs) (Some "s1")])), w') ∧
    calls w' = calls two_songs ++
      Scan None :: (Scan ∘ Some <$> cursors (pager two_songs (table two_songs) None ::
                                             [page_by 1 (table two_songs) (Some "s1")])) ∧
    table w' = table two_songs.
Proof.
  split; [intros n; reflexivity|].
  split; [vm_compute; split; reflexivity|].
  split; [simpl; lia|].
  apply (get_all_songs_pages 1 two_songs [page_by 1 (table two_songs) (Some "s1")]);
    [intros n; reflexivity|vm_compute; split; reflexivity|simpl; lia].
Defined.

(** *** The example store

    A store that cuts the table into pages of [limit] items serves all of
    it, and the listing returns every persisted song. *)

Lemma after_app (key : string) (attrs : Item) (pre post : list (string * Item)) :
  key ∉ pre.*1 → after key (pre ++ (key, attrs) :: post) = post.
Proof.
  induction pre as [|[k a] pre IH]; simpl; intros Hpre.
  - by rewrite bool_decide_eq_true_2.
  - apply not_elem_of_cons in Hpre as [Hk Hpre].
    rewrite bool_decide_eq_false_2 by done. by apply IH.
Qed.

Lemma page_of_follows (limit : nat) (items : list (string * Item))
    (page_at : option string → ScanResponse) :
  (0 < limit)%nat →
  (∀ pre key attrs post,
     items = pre ++ (key, attrs) :: post → page_at (Some key) = page_of limit post) →
  ∀ (n : nat) (pre rest : list (string * Item)),
    (length rest ≤ n)%nat → items = pre ++ rest →
    ∃ pages,
      follows page_at (page_of limit rest) pages ∧
      (length pages ≤ length rest)%nat ∧
      concat (Items <$> page_of limit rest :: pages) =
        (λ kv, with_key kv.1 kv.2) <$> rest.
Proof.
  intros Hlimit Hat.
  assert (∀ rest : list (string * Item), (length rest ≤ limit)%nat →
    ∃ pages,
      follows page_at (page_of limit rest) pages ∧
      (length pages ≤ length rest)%nat ∧
      concat (Items <$> page_of limit rest :: pages) =
        (λ kv, with_key kv.1 kv.2) <$> rest) as Hshort.
  { intros rest Hrest. exists []. unfold page_of. cbn [follows LastEvaluatedKey].
    rewrite bool_decide_eq_true_2 by done. rewrite take_ge by done.
    split; [done|]. split; [simpl; lia|]. simpl. by rewrite app_nil_r. }
  induction n as [|n IH]; intros pre rest Hn Hitems.
  - apply Hshort. lia.
  - destruct (decide (length rest ≤ limit)%nat) as [Hrest|Hlong];
      [by apply Hshort|].
    + destruct (last (take limit rest)) as [[key attrs]|] eqn:Hlast.
      2:{ apply last_None in Hlast. apply (f_equal length) in Hlast.
          rewrite length_take in Hlast. simpl in Hlast. lia. }
      apply last_Some in Hlast as [front Hfront].
      assert (rest = front ++ (key, attrs) :: drop limit rest) as Hrest.
      { rewrite <- (take_drop limit rest) at 1. rewrite Hfront.
        by rewrite <- app_assoc. }
      destruct (IH (pre ++ front ++ [(key, attrs)]) (drop limit rest))
        as (pages & Hf & Hlen & Hcat).
      { rewrite length_drop. lia. }
      { rewrite Hitems. rewrite Hrest at 1. by rewrite <- !app_assoc. }
      exists (page_of limit (drop limit rest) :: pages).
      assert (page_at (Some key) = page_of limit (drop limit rest)) as Hnext.
      { apply (Hat (pre ++ front) key attrs). rewrite Hitems. rewrite Hrest at 1.
        by rewrite <- app_assoc. }
      split; [|split].
      * unfold page_of at 1. simpl. rewrite bool_decide_eq_false_2 by done.
        rewrite Hfront, last_snoc. simpl. by rewrite Hnext.
      * simpl. rewrite length_drop in Hlen. lia.
      * change (concat (Items <$> page_of limit rest :: page_of limit (drop limit rest) :: pages))
          with (Items (page_of limit rest) ++
                concat (Items <$> page_of limit (drop limit rest) :: pages)).
        rewrite Hcat. unfold page_of. simpl.
        by rewrite <- fmap_app, take_drop.
Qed.

Lemma page_by_follows (limit : nat) (t : gmap string Item) :
  (0 < limit)%nat →
  ∃ pages,
    follows (page_by limit t) (page_by limit t None) pages ∧
    (length pages ≤ size t)%nat ∧
    concat (Items <$> page_by limit t None :: pages) = persisted t.
Proof.
  intros Hlimit. rewrite <- length_map_to_list. unfold persisted.
  apply (page_of_follows limit (map_to_list t) (page_by limit t) Hlimit)
    with (n := length (map_to_list t)) (pre := []); [|done..].
  intros pre key attrs post Hitems. unfold page_by. rewrite Hitems.
  rewrite after_app; [done|].
  pose proof (NoDup_fst_map_to_list t) as Hnd. rewrite Hitems, fmap_app in Hnd.
  apply NoDup_app in Hnd as (_ & Hnd & _). intros Hin. apply (Hnd key Hin).
  simpl. apply list_elem_of_here.
Qed.

Lemma get_all_songs_page_by (limit : nat) (w : World) :
  reliable w → pager w = page_by limit → (0 < limit)%nat →
  ∃ w',
    SongCRUD.get_all_songs (size (table w)) w = (Return (persisted (table w)), w') ∧
    table w' = table w.
Proof.
  intros Hw Hpager Hlimit.
  destruct (page_by_follows limit (table w) Hlimit) as (pages & Hf & Hlen & Hcat).
  rewrite <- Hpager in Hf, Hcat.
  destruct (scan_loop_pages pages (size (table w)) (pager w (table w) None)
              (Items (pager w (table w) None)) (log_call (Scan None) w))
    as (w' & Hrun & _ & Htable); [apply Hw|exact Hf|done|].
  exists w'. unfold SongCRUD.get_all_songs, try_except, mbind, M_bind.
  rewrite scan_answered by apply Hw. rewrite Hrun. by rewrite <- Hcat.
Qed.

(** The empty table of the example store: one page, no items. *)
Example get_all_songs_empty :
  (SongCRUD.get_all_songs 0 empty_world).1 = Return [].
Proof. reflexivity. Qed.

(** C8. Whatever requests are served, the table keeps the invariant of the
    data model: every persisted song has a non-empty id, a non-empty name
    and plays that are not negative, and no two persisted songs share an
    id. *)
Theorem invariant_after_requests (fuel : nat) (rs : list Request) (w : World) :
  invariant (table w) → invariant (table (serve_all fuel rs w)).
Proof.
  revert w. induction rs as [|r rs IH]; intros w Hinv; simpl; [done|].
  by apply IH, app_invariant.
Qed.

Lemma invariant_after_requests_witness :
  invariant (table two_songs) ∧
  invariant (table (serve_all 2
    [POST_songs imagine_body;
     PUT_song "s2" {[ "name" := JStr "Yesterday (remastered)"; "plays" := JInt 13 ]};
     DELETE_song "s1"; GET_songs] two_songs)).
Proof.
  assert (invariant (table two_songs)) as H.
  { split; [reflexivity|].
    apply (bool_decide_unpack (NoDup _)). vm_compute. exact I. }
  split; [exact H|].
  exact (invariant_after_requests 2 _ two_songs H).
Defined.

(** From an empty table on, every state that requests lead to is a state
    of the data model. *)
Corollary invariant_from_empty (fuel : nat) (rs : list Request) (w : World) :
  table w = ∅ → invariant (table (serve_all fuel rs w)).
Proof.
  intros Hw. apply invariant_after_requests. rewrite Hw.
  apply invariant_map_Forall, map_Forall_empty.
Qed.



(** What [create_song] returns is the item it built for the identifier of
    the generator. *)
Lemma create_song_returns (song : SongCreate.t) (w w' : World) (item : Item) :
  SongCRUD.create_song song w = (Return item, w') → item = new_song (fresh_id w) song.
Proof.
  unfold SongCRUD.create_song, try_except, mbind, M_bind, uuid4.
  fold (fresh_id w). fold (new_song (fresh_id w) song).
  destruct (put_item _ _) as [[a|e|] w1]; [by intros [= <- _]| |done].
  by destruct e.
Qed.

(** C10. An [id] in the body of a create request is ignored.  With or
    without it the request validates to the same input and, in one and the
    same world, the two requests have the same effect altogether.  An
    answer 201 carries the id the generator gives in the world of the
    request, with the name, path and plays of the body.  When the store
    takes the item, the two requests are answered 201 with the same name,
    path and plays, each with the id of its own world. *)
Theorem create_ignores_id (fuel : nat) (body : gmap string JValue) (v : JValue) :
  SongCreate.validate (<["id" := v]> body) = SongCreate.validate body ∧
  (∀ w, app fuel (POST_songs (<["id" := v]> body)) w = app fuel (POST_songs body) w) ∧
  (∀ w c,
     (app fuel (POST_songs (<["id" := v]> body)) w).1 = Return (mkResponse 201 c) →
     ∃ song,
       SongCreate.validate body = Some song ∧
       c = Song (SongResponse.mk (fresh_id w) (SongCreate.name song)
                   (SongCreate.path song) (SongCreate.plays song))) ∧
  (∀ song w1 w2,
     SongCreate.validate body = Some song →
     within_38_digits (SongCreate.plays song) = true →
     available w1 → fits w1 (new_song (fresh_id w1) song) = true →
     available w2 → fits w2 (new_song (fresh_id w2) song) = true →
     (app fuel (POST_songs (<["id" := v]> body)) w1).1 =
       Return (mkResponse 201
         (Song (SongResponse.mk (fresh_id w1) (SongCreate.name song)
                  (SongCreate.path song) (SongCreate.plays song)))) ∧
     (app fuel (POST_songs body) w2).1 =
       Return (mkResponse 201
         (Song (SongResponse.mk (fresh_id w2) (SongCreate.name song)
                  (SongCreate.path song) (SongCreate.plays song))))).
Proof.
  assert (SongCreate.validate (<["id" := v]> body) = SongCreate.validate body) as Hid
    by apply validate_ignores_id.
  split; [done|]. split; [intros w; unfold app; by rewrite Hid|]. split.
  - intros w c. unfold app. rewrite Hid.
    destruct (SongCreate.validate body) as [song|] eqn:Hv; [|done].
    apply validate_create_Some in Hv as (_ & _ & _ & Hv).
    unfold respond, main.create_song, try_except, mbind, M_bind, mret, M_ret.
    destruct (SongCRUD.create_song song w) as [[item|e|] w'] eqn:Hc; simpl.
    + apply create_song_returns in Hc as ->. rewrite render_new_song by done.
      intros [= <-]. by exists song.
    + done.
    + done.
  - intros song w1 w2 Hv Hn Hw1 Hf1 Hw2 Hf2.
    rewrite (post_songs_created fuel w1 _ song) by (done || by rewrite Hid).
    by rewrite (post_songs_created fuel w2 body song) by done.
Qed.

Lemma create_ignores_id_witness :
  SongCreate.validate imagine_body = Some imagine_input ∧
  within_38_digits (SongCreate.plays imagine_input) = true ∧
  available two_songs ∧
  fits two_songs (new_song (fresh_id two_songs) imagine_input) = true ∧
  available empty_world ∧
  fits empty_world (new_song (fresh_id empty_world) imagine_input) = true ∧
  (app 0 (POST_songs (<["id" := JStr "s1"]> imagine_body)) two_songs).1 =
    Return (mkResponse 201
      (Song (SongResponse.mk (fresh_id two_songs) (SongCreate.name imagine_input)
               (SongCreate.path imagine_input) (SongCreate.plays imagine_input)))) ∧
  (app 0 (POST_songs imagine_body) empty_world).1 =
    Return (mkResponse 201
      (Song (SongResponse.mk (fresh_id empty_world) (SongCreate.name imagine_input)
               (SongCreate.path imagine_input) (SongCreate.plays imagine_input)))).
Proof.
  split; [reflexivity|]. split; [reflexivity|]. split; [reflexivity|].
  split; [vm_compute; reflexivity|]. split; [reflexivity|].
  split; [vm_compute; reflexivity|].
  apply (create_ignores_id 0 imagine_body (JStr "s1"));
    [reflexivity|reflexivity|reflexivity|vm_compute; reflexivity
    |reflexivity|vm_compute; reflexivity].
Defined.

(** Also for a body that validation refuses, the [id] changes nothing. *)
Lemma post_songs_ignores_id (fuel : nat) (body : gmap string JValue) (v : JValue)
    (w : World) :
  app fuel (POST_songs (<["id" := v]> body)) w = app fuel (POST_songs body) w.
Proof. unfold app. by rewrite validate_ignores_id. Qed.

(** * Further properties *)

(** ** Reading and deleting through the endpoints *)

Lemma validate_id (item : Item) (song : SongResponse.t) (key : string) :
  SongResponse.validate item = Some song → item !! "id" = Some (AttrS key) →
  SongResponse.id song = key.
Proof.
  unfold SongResponse.validate. intros H Hid.
  destruct (required_str _ _ ((to_json <$> item) !! "name")); [|done].
  destruct (required_str _ _ ((to_json <$> item) !! "path")); [|done].
  destruct (defaulted_int _ _ ((to_json <$> item) !! "plays")); [|done].
  simpl in H. rewrite lookup_fmap, Hid in H. simpl in H. by simplify_eq.
Qed.

(** X1. When the store answers, [GET /songs/{id}] for a persisted song that
    passes the response model is answered 200 with that song, whose id is
    the id asked for; one [get_item] is sent. *)
Theorem get_song_found (fuel : nat) (w : World) (song_id : string) (attrs : Item)
    (song : SongResponse.t) :
  available w → table w !! song_id = Some attrs →
  SongResponse.validate (with_key song_id attrs) = Some song →
  app fuel (GET_song song_id) w =
    (Return (mkResponse 200 (Song song)), log_call (GetItem song_id) w) ∧
  SongResponse.id song = song_id.
Proof.
  intros Hw Hk Hv. split.
  - unfold app, respond, main.get_song, try_except, mbind, M_bind.
    rewrite (get_song_by_id_stored w song_id attrs) by done.
    unfold mret, M_ret, render_song. by rewrite Hv.
  - apply (validate_id _ _ _ Hv). apply lookup_insert_eq.
Qed.

Lemma get_song_found_witness :
  available two_songs ∧ table two_songs !! "s1" = Some imagine ∧
  SongResponse.validate (with_key "s1" imagine) = Some imagine_response ∧
  app 0 (GET_song "s1") two_songs =
    (Return (mkResponse 200 (Song imagine_response)),
     log_call (GetItem "s1") two_songs) ∧
  SongResponse.id imagine_response = "s1".
Proof.
  split; [reflexivity|]. split; [reflexivity|]. split; [reflexivity|].
  apply (get_song_found 0 two_songs "s1" imagine imagine_response); reflexivity.
Defined.

(** X2. [GET /songs/{id}] for an id that is not in the table is answered
    404 with the id in the detail when the id is one the store takes as a
    key (1 to 2048 bytes), and 500 when it is not. *)
Theorem get_song_missing (fuel : nat) (w : World) (song_id : string) :
  available w → table w !! song_id = None →
  app fuel (GET_song song_id) w =
    (Return
       (if holdable song_id
        then mkResponse 404 (Detail ("Song with ID " +:+ song_id +:+ " not found"))
        else mkResponse 500 (Detail "Failed to retrieve song")),
     log_call (GetItem song_id) w).
Proof.
  intros Hw Hk. unfold app, respond, main.get_song, try_except, mbind, M_bind.
  destruct (holdable song_id) eqn:Hh.
  - rewrite get_song_by_id_answered by done. by rewrite Hk.
  - by rewrite get_song_by_id_refused by done.
Qed.

Lemma get_song_missing_witness :
  available two_songs ∧ table two_songs !! "s7" = None ∧
  app 0 (GET_song "s7") two_songs =
    (Return (mkResponse 404 (Detail ("Song with ID " +:+ "s7" +:+ " not found"))),
     log_call (GetItem "s7") two_songs).
Proof.
  split; [reflexivity|]. split; [reflexivity|].
  apply (get_song_missing 0 two_songs "s7"); reflexivity.
Defined.

Lemma delete_song_answered (w : World) (song_id : string) :
  available w → holdable song_id = true →
  SongCRUD.delete_song song_id w =
    (Return (with_key song_id <$> table w !! song_id),
     set_table (delete song_id (table w)) (log_call (DeleteItem song_id) w)).
Proof.
  intros Hw Hh. unfold SongCRUD.delete_song, try_except, mbind, M_bind, delete_item.
  erewrite request_answered; [done|done|apply sendable_empty|by rewrite Hh].
Qed.

Lemma delete_song_refused (w : World) (song_id : string) :
  available w → holdable song_id = false →
  SongCRUD.delete_song song_id w =
    (Raise (Exception "Failed to delete song"), log_call (DeleteItem song_id) w).
Proof.
  intros Hw Hh. unfold SongCRUD.delete_song, try_except, mbind, M_bind, delete_item.
  by rewrite request_refused by (done || apply sendable_empty || by rewrite Hh).
Qed.

(** X3. [DELETE /songs/{id}] for a persisted song is answered 200 with the
    confirmation message and the song as it was; afterwards the id is gone
    and every other song is as before.  One [delete_item] is sent. *)
Theorem delete_song_found (fuel : nat) (w : World) (song_id : string)
    (attrs : Item) :
  available w → table w !! song_id = Some attrs →
  ∃ w',
    app fuel (DELETE_song song_id) w =
      (Return (mkResponse 200
         (Deleted "Song deleted successfully" (with_key song_id attrs))), w') ∧
    table w' !! song_id = None ∧
    (∀ other, other ≠ song_id → table w' !! other = table w !! other) ∧
    calls w' = calls w ++ [DeleteItem song_id].
Proof.
  intros Hw Hk. eexists.
  unfold app, respond, main.delete_song, try_except, mbind, M_bind.
  rewrite delete_song_answered by eauto using stored_holdable. rewrite Hk. simpl.
  split; [reflexivity|]. rewrite table_set_table by apply holdable_delete.
  split; [apply lookup_delete_eq|].
  split; [|done]. intros other Hne. by apply lookup_delete_ne.
Qed.

Lemma delete_song_found_witness :
  available two_songs ∧ table two_songs !! "s1" = Some imagine ∧
  ∃ w',
    app 0 (DELETE_song "s1") two_songs =
      (Return (mkResponse 200
         (Deleted "Song deleted successfully" (with_key "s1" imagine))), w') ∧
    table w' !! "s1" = None ∧
    (∀ other, other ≠ "s1" → table w' !! other = table two_songs !! other) ∧
    calls w' = calls two_songs ++ [DeleteItem "s1"].
Proof.
  split; [reflexivity|]. split; [reflexivity|].
  apply (delete_song_found 0 two_songs "s1" imagine); reflexivity.
Defined.

(** X4. [DELETE /songs/{id}] for an id that is not in the table leaves the
    table as it was; it is answered 404 when the id is one the store takes
    as a key (1 to 2048 bytes), and 500 when it is not. *)
Theorem delete_song_missing (fuel : nat) (w : World) (song_id : string) :
  available w → table w !! song_id = None →
  ∃ w',
    app fuel (DELETE_song song_id) w =
      (Return
         (if holdable song_id
          then mkResponse 404 (Detail ("Song with ID " +:+ song_id +:+ " not found"))
          else mkResponse 500 (Detail "Failed to delete song")), w') ∧
    table w' = table w ∧ calls w' = calls w ++ [DeleteItem song_id].
Proof.
  intros Hw Hk. unfold app, respond, main.delete_song, try_except, mbind, M_bind.
  destruct (holdable song_id) eqn:Hh.
  - eexists. rewrite delete_song_answered by done. rewrite Hk. simpl.
    split; [reflexivity|]. rewrite table_set_table by apply holdable_delete.
    split; [|done]. by apply delete_id.
  - eexists. rewrite delete_song_refused by done. simpl. done.
Qed.

Lemma delete_song_missing_witness :
  available two_songs ∧ table two_songs !! "s7" = None ∧
  ∃ w',
    app 0 (DELETE_song "s7") two_songs =
      (Return (mkResponse 404
         (Detail ("Song with ID " +:+ "s7" +:+ " not found"))), w') ∧
    table w' = table two_songs ∧ calls w' = calls two_songs ++ [DeleteItem "s7"].
Proof.
  split; [reflexivity|]. split; [reflexivity|].
  apply (delete_song_missing 0 two_songs "s7"); reflexivity.
Defined.

(** ** Failures *)

Local Ltac failed_once :=
  simpl; split_and!; try reflexivity;
  unfold log_call, next_draw; simpl; rewrite length_app; simpl; lia.

(** X5. When the store fails the first request of an endpoint, every
    route answers 500 with its own fixed detail, nothing is written and no
    second request is sent. *)
Theorem store_failure_500 (fuel : nat) (r : Request) (w : World) :
  outage w (length (calls w)) = true → accepted r = true →
  ∃ w',
    app fuel r w = (Return (mkResponse 500 (Detail (failure_detail r))), w') ∧
    table w' = table w ∧ length (calls w') = S (length (calls w)).
Proof.
  intros Ho Hr.
  destruct r as [|body|song_id|song_id body|song_id]; unfold app.
  - eexists.
    unfold respond, main.get_songs, SongCRUD.get_all_songs, try_except,
      mbind, M_bind, scan.
    rewrite request_outage by (done || apply sendable_empty). failed_once.
  - simpl in Hr. apply bool_decide_eq_true in Hr as [song Hv]. rewrite Hv.
    eexists. unfold respond, main.create_song, try_except, mbind, M_bind.
    destruct (within_38_digits (SongCreate.plays song)) eqn:Hn.
    + unfold SongCRUD.create_song, try_except, mbind, M_bind, uuid4, put_item.
      rewrite request_outage by (done || by apply sendable_new_song).
      failed_once.
    + rewrite create_song_unsendable by done. failed_once.
  - eexists. unfold respond, main.get_song, try_except, mbind, M_bind.
    rewrite get_song_by_id_outage by done. failed_once.
  - simpl in Hr. apply bool_decide_eq_true in Hr as [song Hv]. rewrite Hv.
    eexists.
    unfold respond, main.update_song, SongCRUD.update_song, try_except,
      mbind, M_bind.
    rewrite get_song_by_id_outage by done. failed_once.
  - eexists.
    unfold respond, main.delete_song, SongCRUD.delete_song, try_except,
      mbind, M_bind, delete_item.
    rewrite request_outage by (done || apply sendable_empty). failed_once.
Qed.

Lemma store_failure_500_witness :
  outage (store_down two_songs) (length (calls (store_down two_songs))) = true ∧
  accepted (PUT_song "s1" {[ "plays" := JInt 5 ]}) = true ∧
  ∃ w',
    app 0 (PUT_song "s1" {[ "plays" := JInt 5 ]}) (store_down two_songs) =
      (Return (mkResponse 500
         (Detail (failure_detail (PUT_song "s1" {[ "plays" := JInt 5 ]})))), w') ∧
    table w' = table (store_down two_songs) ∧
    length (calls w') = S (length (calls (store_down two_songs))).
Proof.
  split; [reflexivity|]. split; [reflexivity|].
  apply (store_failure_500 0 (PUT_song "s1" {[ "plays" := JInt 5 ]})
           (store_down two_songs)); reflexivity.
Defined.

(** *** What the service raises *)

Lemma request_raises {A} (c : Call) (serve : _ → option (A * _)) (w w' : World)
    (e : Exn) :
  request c serve w = (Raise e, w') → from_boto3 (negb (serializes c)) e.
Proof.
  unfold request, transport. destruct (serializes c); simpl.
  - destruct (outage w (length (calls w))); [by intros [= <- _]|].
    destruct (severed w (length (calls w))); [by intros [= <- _]|].
    destruct (serve (table w)) as [[a t]|]; [done|]. by intros [= <- _].
  - destruct (outage w (length (calls w))); [by intros [= <- _]|].
    by destruct (severed w (length (calls w))); intros [= <- _].
Qed.

Lemma scan_raises (start : option string) (w w' : World) (e : Exn) :
  scan start w = (Raise e, w') → from_boto3 false e.
Proof.
  intros H%request_raises. by rewrite serializes_true in H by apply sendable_empty.
Qed.

Lemma scan_loop_raises (fuel : nat) :
  ∀ response songs w w' e,
    SongCRUD.scan_loop fuel response songs w = (Raise e, w') → from_boto3 false e.
Proof.
  induction fuel as [|fuel IH]; intros [its [key|]] songs w w' e; simpl; try done.
  unfold mbind, M_bind.
  destruct (scan (Some key) w) as [[r|e'|] w1] eqn:Hs; try done.
  - apply IH.
  - intros [= <- _]. by apply scan_raises in Hs.
Qed.

Lemma wrapped {A} (body : M A) (msg : string) (decimal : bool) (w w' : World)
    (e : Exn) :
  (∀ e1 w1, body w = (Raise e1, w1) → from_boto3 decimal e1) →
  try_except body (except_ClientError (raise (Exception msg))) w = (Raise e, w') →
  from_service [msg] decimal e.
Proof.
  intros Hbody. unfold try_except.
  destruct (body w) as [[a|e1|] w1] eqn:Hb; try done.
  specialize (Hbody e1 w1 eq_refl).
  destruct e1; simpl in *; try done; intros [= <- _]; simpl; try done.
  apply list_elem_of_here.
Qed.

Lemma bind_ret_raises {A} (m : M A) (w w1 : World) (e1 : Exn) :
  (a ← m; mret a) w = (Raise e1, w1) → m w = (Raise e1, w1).
Proof.
  unfold mbind, M_bind. by destruct (m w) as [[a|e|] w2].
Qed.

Lemma get_all_songs_raises (fuel : nat) (w w' : World) (e : Exn) :
  SongCRUD.get_all_songs fuel w = (Raise e, w') →
  from_service ["Failed to retrieve songs"] false e.
Proof.
  apply wrapped. intros e1 w1. unfold mbind, M_bind.
  destruct (scan None w) as [[r|e2|] w2] eqn:Hs; try done.
  - apply scan_loop_raises.
  - intros [= <- _]. by apply scan_raises in Hs.
Qed.

Lemma get_song_by_id_raises (song_id : string) (w w' : World) (e : Exn) :
  SongCRUD.get_song_by_id song_id w = (Raise e, w') →
  from_service ["Failed to retrieve song"] false e.
Proof.
  apply wrapped. intros e1 w1 H%bind_ret_raises. apply request_raises in H.
  by rewrite serializes_true in H by apply sendable_empty.
Qed.

Lemma create_song_raises (song : SongCreate.t) (w w' : World) (e : Exn) :
  SongCRUD.create_song song w = (Raise e, w') →
  from_service ["Failed to create song"]
    (negb (within_38_digits (SongCreate.plays song))) e.
Proof.
  apply wrapped. intros e1 w1. unfold mbind, M_bind, uuid4.
  fold (fresh_id w). fold (new_song (fresh_id w) song).
  intros H. unfold put_item in H.
  destruct (request _ _ _) as [[a|e2|] w2] eqn:Hp; try done.
  injection H as <- _. apply request_raises in Hp.
  destruct (within_38_digits (SongCreate.plays song)) eqn:Hn; [|by destruct e2].
  rewrite serializes_true in Hp; [done|]. by apply sendable_new_song.
Qed.

Lemma delete_song_raises (song_id : string) (w w' : World) (e : Exn) :
  SongCRUD.delete_song song_id w = (Raise e, w') →
  from_service ["Failed to delete song"] false e.
Proof.
  apply wrapped. intros e1 w1 H%bind_ret_raises. apply request_raises in H.
  by rewrite serializes_true in H by apply sendable_empty.
Qed.

Lemma from_service_more (msgs msgs' : list string) (decimal decimal' : bool)
    (e : Exn) :
  msgs ⊆ msgs' → (decimal = true → decimal' = true) →
  from_service msgs decimal e → from_service msgs' decimal' e.
Proof. intros Hm Hd. destruct e; simpl; auto. Qed.

Lemma update_song_raises (song_id : string) (song : SongUpdate.t) (w w' : World)
    (e : Exn) :
  SongCRUD.update_song song_id song w = (Raise e, w') →
  from_service ["Failed to retrieve song"; "Failed to update song"]
    (negb (plays_sendable song)) e.
Proof.
  unfold SongCRUD.update_song, try_except, mbind at 1, M_bind at 1.
  destruct (SongCRUD.get_song_by_id song_id w) as [[existing|e1|] w1] eqn:Hg.
  - destruct (negb (truthy existing)); [done|].
    destruct (bool_decide _); [done|].
    destruct ((updated_song ← update_item _ _ _ _; mret updated_song) w1)
      as [[a|e2|] w2] eqn:Hu; try done.
    apply bind_ret_raises, request_raises in Hu.
    assert (from_boto3 (negb (plays_sendable song)) e2) as He2.
    { destruct (plays_sendable song) eqn:Hn; [|by destruct e2].
      rewrite serializes_true in Hu; [done|]. by apply sendable_values. }
    destruct e2; simpl in *; try done; intros [= <- _]; simpl; try done.
    apply list_elem_of_further, list_elem_of_here.
  - apply get_song_by_id_raises in Hg.
    destruct e1; simpl in *; try done; intros [= <- _]; simpl; try done.
    apply list_elem_of_singleton in Hg as ->. apply list_elem_of_here.
  - done.
Qed.

(** *** What the service never does: diverge outside the listing *)

Lemma request_returns_or_raises {A} (c : Call) (serve : _ → option (A * _))
    (w : World) :
  (request c serve w).1 ≠ Diverge.
Proof.
  unfold request. destruct (transport w), (serializes c); try done.
  by destruct (serve (table w)) as [[a t]|].
Qed.

Lemma wrapped_diverges {A} (body : M A) (h : M A) (w : World) :
  (try_except body (except_ClientError h) w).1 = Diverge →
  (∀ w', (h w').1 ≠ Diverge) → (body w).1 = Diverge.
Proof.
  unfold try_except. destruct (body w) as [[a|e|] w1]; try done.
  destruct e; simpl; try done. intros H Hh. by apply Hh in H.
Qed.

Lemma bind_ret_diverges {A} (m : M A) (w : World) :
  ((a ← m; mret a) w).1 = Diverge → (m w).1 = Diverge.
Proof. unfold mbind, M_bind. by destruct (m w) as [[a|e|] w2]. Qed.

Lemma get_song_by_id_halts (song_id : string) (w : World) :
  (SongCRUD.get_song_by_id song_id w).1 ≠ Diverge.
Proof.
  intros H. apply wrapped_diverges in H; [|done].
  by apply bind_ret_diverges, request_returns_or_raises in H.
Qed.

Lemma delete_song_halts (song_id : string) (w : World) :
  (SongCRUD.delete_song song_id w).1 ≠ Diverge.
Proof.
  intros H. apply wrapped_diverges in H; [|done].
  by apply bind_ret_diverges, request_returns_or_raises in H.
Qed.

Lemma create_song_halts (song : SongCreate.t) (w : World) :
  (SongCRUD.create_song song w).1 ≠ Diverge.
Proof.
  intros H. apply wrapped_diverges in H; [|done]. revert H.
  unfold mbind, M_bind, uuid4, put_item.
  match goal with
  | |- context [request ?c ?serve ?w1] =>
      pose proof (request_returns_or_raises c serve w1) as Hp;
      by destruct (request c serve w1) as [[a|e|] w2]
  end.
Qed.

Lemma update_song_halts (song_id : string) (song : SongUpdate.t) (w : World) :
  (SongCRUD.update_song song_id song w).1 ≠ Diverge.
Proof.
  intros H. apply wrapped_diverges in H; [|done]. revert H.
  unfold mbind at 1, M_bind at 1.
  pose proof (get_song_by_id_halts song_id w) as Hg.
  destruct (SongCRUD.get_song_by_id song_id w) as [[existing|e|] w1]; try done.
  destruct (negb (truthy existing)); [done|].
  destruct (bool_decide _); [done|].
  intros H. by apply bind_ret_diverges, request_returns_or_raises in H.
Qed.

Local Ltac listed := by repeat constructor.

Lemma raises_only_intro {A} (msgs : list string) (decimal : bool) (m : M A)
    (w : World) :
  (∀ e w', m w = (Raise e, w') → from_service msgs decimal e) →
  raises_only msgs decimal (m w).1.
Proof.
  intros H. destruct (m w) as [[a|e|] w'] eqn:Hm; simpl; try done.
  by apply (H e w').
Qed.

(** X6. The methods of [SongCRUD] never let a [ClientError] out: in its
    place they raise an [Exception] with the message of the method.  What
    else they raise is what the table raised and [except ClientError] does
    not catch: a [BotoCoreError], the signal of [decimal] from
    [create_song] and [update_song] for plays of more than 38 digits, and
    from [update_song] the [Exception] of the lookup it starts with. *)
Theorem service_raises_exception (fuel : nat) (song_id : string)
    (song_data : SongCreate.t) (changes : SongUpdate.t) (w : World) :
  raises_only ["Failed to retrieve songs"] false (SongCRUD.get_all_songs fuel w).1 ∧
  raises_only ["Failed to create song"]
    (negb (within_38_digits (SongCreate.plays song_data)))
    (SongCRUD.create_song song_data w).1 ∧
  raises_only ["Failed to retrieve song"] false
    (SongCRUD.get_song_by_id song_id w).1 ∧
  raises_only ["Failed to retrieve song"; "Failed to update song"]
    (negb (plays_sendable changes)) (SongCRUD.update_song song_id changes w).1 ∧
  raises_only ["Failed to delete song"] false (SongCRUD.delete_song song_id w).1.
Proof.
  split_and!; apply raises_only_intro; intros e w'.
  - apply get_all_songs_raises.
  - apply create_song_raises.
  - apply get_song_by_id_raises.
  - apply update_song_raises.
  - apply delete_song_raises.
Qed.

(** ** The statuses of the routes *)

Lemma respond_status {A} (success : nat) (render : A → option Content)
    (endpoint : M A) (w : World) (allowed : list nat) :
  success ∈ allowed → 500%nat ∈ allowed →
  (∀ status detail, (endpoint w).1 = Raise (HTTPException status detail) →
     status ∈ allowed) →
  match (respond success render endpoint w).1 with
  | Return resp => status_code resp ∈ allowed
  | Raise _ => False
  | Diverge => (endpoint w).1 = Diverge
  end.
Proof.
  intros Hs H500 Hraise. unfold respond.
  destruct (endpoint w) as [[a|e|] w'] eqn:He; simpl in *.
  - by destruct (render a).
  - destruct e; simpl; try done. by apply (Hraise _ detail).
  - done.
Qed.

Lemma from_service_guarded (msgs : list string) (decimal : bool) (e : Exn) :
  from_service msgs decimal e → ∀ status detail, e ≠ HTTPException status detail.
Proof. by destruct e. Qed.

Lemma guarded_raises {A B} (m : M (option A)) (f : A → M B) (song_id detail : string)
    (w : World) (status : nat) (d : string) :
  (∀ e w', m w = (Raise e, w') → ∀ status detail, e ≠ HTTPException status detail) →
  (∀ a w' e w'', f a w' ≠ (Raise e, w'')) →
  (try_except
     (x ← m;
      match x with
      | None => raise (main.not_found song_id)
      | Some a => f a
      end)
     (main.reraise_or_500 detail) w).1 = Raise (HTTPException status d) →
  status = 404%nat ∨ status = 500%nat.
Proof.
  intros Hm Hf. unfold try_except, mbind, M_bind.
  destruct (m w) as [[[a|]|e|] w'] eqn:Hmw; simpl.
  - destruct (f a w') as [[b|e|] w''] eqn:Hfa; try done. by apply Hf in Hfa.
  - intros [= <- _]. by left.
  - specialize (Hm e w' eq_refl).
    destruct e; simpl; try (intros [= <- _]; by right). by destruct (Hm status_code0 detail0).
  - done.
Qed.

Lemma guarded_diverges {A B} (m : M (option A)) (f : A → M B)
    (song_id detail : string) (w : World) :
  (m w).1 ≠ Diverge →
  (∀ a w', (f a w').1 ≠ Diverge) →
  (try_except
     (x ← m;
      match x with
      | None => raise (main.not_found song_id)
      | Some a => f a
      end)
     (main.reraise_or_500 detail) w).1 ≠ Diverge.
Proof.
  intros Hm Hf. unfold try_except, mbind, M_bind.
  destruct (m w) as [[[a|]|e|] w'] eqn:Hmw; simpl in *; try done.
  - specialize (Hf a w'). destruct (f a w') as [[b|e|] w'']; try done.
    by destruct e.
  - by destruct e.
Qed.

(** X7. No exception leaves the application, and each route answers only
    with the statuses of its row: 200 or 500 for the listing, 201, 422 or
    500 for a create, 200, 404 or 500 for a read or a delete, 200, 404, 422
    or 500 for an update.  Only the listing can run out of fuel. *)
Theorem status_of_route (fuel : nat) (r : Request) (w : World) :
  match (app fuel r w).1 with
  | Return resp => status_code resp ∈ statuses r
  | Raise _ => False
  | Diverge => r = GET_songs
  end.
Proof.
  destruct r as [|body|song_id|song_id body|song_id]; unfold app.
  - pose proof (respond_status 200
      (λ songs, Songs <$> mapM SongResponse.validate songs)
      (main.get_songs fuel) w (statuses GET_songs)) as H.
    assert (∀ status detail,
      (main.get_songs fuel w).1 = Raise (HTTPException status detail) →
      status ∈ statuses GET_songs) as Hr.
    { intros status detail. unfold main.get_songs, try_except, mbind, M_bind.
      destruct (SongCRUD.get_all_songs fuel w) as [[a|e|] w']; simpl; try done.
      intros [= <- _]. listed. }
    destruct (respond _ _ _ w).1 eqn:Hresp; try done; apply H; listed || done.
  - destruct (SongCreate.validate body) as [song|]; [|simpl; listed].
    pose proof (respond_status 201 render_song (main.create_song song) w
                  (statuses (POST_songs body))) as H.
    assert (∀ status detail,
      (main.create_song song w).1 = Raise (HTTPException status detail) →
      status ∈ statuses (POST_songs body)) as Hr.
    { intros status detail. unfold main.create_song, try_except, mbind, M_bind.
      destruct (SongCRUD.create_song song w) as [[a|e|] w']; simpl; try done.
      intros [= <- _]. listed. }
    destruct (respond _ _ _ w).1 eqn:Hresp; try (apply H; listed || done).
    exfalso. assert ((main.create_song song w).1 = Diverge) as Hd
      by (apply H; listed || done).
    revert Hd. unfold main.create_song, try_except, mbind, M_bind.
    pose proof (create_song_halts song w).
    by destruct (SongCRUD.create_song song w) as [[a|e|] w'].
  - pose proof (respond_status 200 render_song (main.get_song song_id) w
                  (statuses (GET_song song_id))) as H.
    assert (∀ status detail,
      (main.get_song song_id w).1 = Raise (HTTPException status detail) →
      status ∈ statuses (GET_song song_id)) as Hr.
    { intros status detail Hraise. apply guarded_raises in Hraise as [-> | ->];
        [listed|listed| |done].
      intros e w' He. apply get_song_by_id_raises in He.
      exact (from_service_guarded _ _ _ He). }
    destruct (respond _ _ _ w).1 eqn:Hresp; try (apply H; listed || done).
    exfalso. assert ((main.get_song song_id w).1 = Diverge) as Hd
      by (apply H; listed || done).
    revert Hd. apply guarded_diverges; [apply get_song_by_id_halts|done].
  - destruct (SongUpdate.validate body) as [song|]; [|simpl; listed].
    pose proof (respond_status 200 render_song (main.update_song song_id song) w
                  (statuses (PUT_song song_id body))) as H.
    assert (∀ status detail,
      (main.update_song song_id song w).1 = Raise (HTTPException status detail) →
      status ∈ statuses (PUT_song song_id body)) as Hr.
    { intros status detail Hraise. apply guarded_raises in Hraise as [-> | ->];
        [listed|listed| |done].
      intros e w' He. apply update_song_raises in He.
      exact (from_service_guarded _ _ _ He). }
    destruct (respond _ _ _ w).1 eqn:Hresp; try (apply H; listed || done).
    exfalso. assert ((main.update_song song_id song w).1 = Diverge) as Hd
      by (apply H; listed || done).
    revert Hd. apply guarded_diverges; [apply update_song_halts|done].
  - pose proof (respond_status 200 (λ d : string * Item, Some (Deleted d.1 d.2))
                  (main.delete_song song_id) w
                  (statuses (DELETE_song song_id))) as H.
    assert (∀ status detail,
      (main.delete_song song_id w).1 = Raise (HTTPException status detail) →
      status ∈ statuses (DELETE_song song_id)) as Hr.
    { intros status detail Hraise. apply guarded_raises in Hraise as [-> | ->];
        [listed|listed| |done].
      intros e w' He. apply delete_song_raises in He.
      exact (from_service_guarded _ _ _ He). }
    destruct (respond _ _ _ w).1 eqn:Hresp; try (apply H; listed || done).
    exfalso. assert ((main.delete_song song_id w).1 = Diverge) as Hd
      by (apply H; listed || done).
    revert Hd. apply guarded_diverges; [apply delete_song_halts|done].
Qed.

(** ** Updates that go through *)

Lemma changed_other (song : SongUpdate.t) (attrs : Item) (attr : string) :
  attr ≠ "name" → attr ≠ "path" → attr ≠ "plays" →
  changed song attrs !! attr = attrs !! attr.
Proof.
  intros Hn Hp Hz. unfold changed, set_field.
  destruct song as [[n|] [p|] [z|]]; simpl; by simplify_map_eq.
Qed.

(** X8. For a persisted song and a change set that supplies [name] or
    [path] (with or without [plays]), with plays of at most 38 digits and
    a changed item of a size the store takes, [update_song] returns the
    song with exactly the supplied fields replaced and its id unchanged;
    the next [get_song_by_id] reads the same item and every other song is
    as before. *)
Theorem update_applies (w : World) (song_id : string) (attrs : Item)
    (song_data : SongUpdate.t) :
  reliable w → table w !! song_id = Some attrs →
  is_Some (SongUpdate.name song_data) ∨ is_Some (SongUpdate.path song_data) →
  plays_sendable song_data = true →
  fits w (with_key song_id (changed song_data attrs)) = true →
  ∃ item w',
    SongCRUD.update_song song_id song_data w = (Return (Some item), w') ∧
    item !! "id" = Some (AttrS song_id) ∧
    item !! "name" =
      from_option (Some ∘ AttrS) (attrs !! "name") (SongUpdate.name song_data) ∧
    item !! "path" =
      from_option (Some ∘ AttrS) (attrs !! "path") (SongUpdate.path song_data) ∧
    item !! "plays" =
      from_option (Some ∘ AttrN) (attrs !! "plays") (SongUpdate.plays song_data) ∧
    (SongCRUD.get_song_by_id song_id w').1 = Return (Some item) ∧
    (∀ other, other ≠ song_id → table w' !! other = table w !! other).
Proof.
  intros Hw Hk Hd Hn Hf. eexists _, _.
  pose proof (stored_holdable w song_id attrs Hk) as Hh.
  rewrite (update_song_with_names w song_id attrs) by done.
  split; [reflexivity|]. unfold with_key.
  split; [apply lookup_insert_eq|].
  rewrite !lookup_insert_ne by done.
  rewrite changed_name, changed_path, changed_plays. split_and!; try done.
  - rewrite get_song_by_id_answered by (done || apply Hw).
    rewrite table_set_table by (by apply holdable_insert).
    by rewrite lookup_insert_eq.
  - intros other Hne. rewrite table_set_table by (by apply holdable_insert).
    by rewrite lookup_insert_ne.
Qed.

Lemma update_applies_witness :
  reliable two_songs ∧ table two_songs !! "s1" = Some imagine ∧
  (is_Some (SongUpdate.name live_version) ∨ is_Some (SongUpdate.path live_version)) ∧
  plays_sendable live_version = true ∧
  fits two_songs (with_key "s1" (changed live_version imagine)) = true ∧
  ∃ item w',
    SongCRUD.update_song "s1" live_version two_songs = (Return (Some item), w') ∧
    item !! "id" = Some (AttrS "s1") ∧
    item !! "name" =
      from_option (Some ∘ AttrS) (imagine !! "name") (SongUpdate.name live_version) ∧
    item !! "path" =
      from_option (Some ∘ AttrS) (imagine !! "path") (SongUpdate.path live_version) ∧
    item !! "plays" =
      from_option (Some ∘ AttrN) (imagine !! "plays") (SongUpdate.plays live_version) ∧
    (SongCRUD.get_song_by_id "s1" w').1 = Return (Some item) ∧
    (∀ other, other ≠ "s1" → table w' !! other = table two_songs !! other).
Proof.
  split; [intros n; reflexivity|]. split; [reflexivity|].
  split; [left; eexists; reflexivity|]. split; [reflexivity|].
  split; [vm_compute; reflexivity|].
  apply (update_applies two_songs "s1" imagine live_version);
    [intros n; reflexivity|reflexivity|left; eexists; reflexivity
    |reflexivity|vm_compute; reflexivity].
Defined.

Lemma changed_twice (song : SongUpdate.t) (attrs : Item) :
  changed song (changed song attrs) = changed song attrs.
Proof.
  apply map_eq. intros attr.
  destruct (decide (attr = "name")) as [->|Hn];
    [rewrite !changed_name; by destruct (SongUpdate.name song)|].
  destruct (decide (attr = "path")) as [->|Hp];
    [rewrite !changed_path; by destruct (SongUpdate.path song)|].
  destruct (decide (attr = "plays")) as [->|Hz];
    [rewrite !changed_plays; by destruct (SongUpdate.plays song)|].
  by rewrite !changed_other.
Qed.

(** X9. Sending the same such change set twice returns the same item both
    times, and the second update leaves the table as the first made it. *)
Theorem update_twice (w : World) (song_id : string) (attrs : Item)
    (song_data : SongUpdate.t) :
  reliable w → table w !! song_id = Some attrs →
  is_Some (SongUpdate.name song_data) ∨ is_Some (SongUpdate.path song_data) →
  plays_sendable song_data = true →
  fits w (with_key song_id (changed song_data attrs)) = true →
  ∃ item w1 w2,
    SongCRUD.update_song song_id song_data w = (Return (Some item), w1) ∧
    SongCRUD.update_song song_id song_data w1 = (Return (Some item), w2) ∧
    table w2 = table w1.
Proof.
  intros Hw Hk Hd Hn Hf. eexists _, _, _.
  pose proof (stored_holdable w song_id attrs Hk) as Hh.
  rewrite (update_song_with_names w song_id attrs) by done.
  split; [reflexivity|].
  rewrite (update_song_with_names _ song_id (changed song_data attrs));
    [|apply Hw
     |rewrite table_set_table by (by apply holdable_insert); apply lookup_insert_eq
     |done|done|by rewrite changed_twice].
  rewrite changed_twice. split; [reflexivity|].
  rewrite !table_set_table; [by rewrite insert_insert_eq|by apply holdable_insert|].
  rewrite table_set_table by (by apply holdable_insert).
  apply map_Forall_insert_2; [done|]. by apply holdable_insert.
Qed.

Lemma update_twice_witness :
  reliable two_songs ∧ table two_songs !! "s1" = Some imagine ∧
  (is_Some (SongUpdate.name live_version) ∨ is_Some (SongUpdate.path live_version)) ∧
  plays_sendable live_version = true ∧
  fits two_songs (with_key "s1" (changed live_version imagine)) = true ∧
  ∃ item w1 w2,
    SongCRUD.update_song "s1" live_version two_songs = (Return (Some item), w1) ∧
    SongCRUD.update_song "s1" live_version w1 = (Return (Some item), w2) ∧
    table w2 = table w1.
Proof.
  split; [intros n; reflexivity|]. split; [reflexivity|].
  split; [left; eexists; reflexivity|]. split; [reflexivity|].
  split; [vm_compute; reflexivity|].
  apply (update_twice two_songs "s1" imagine live_version);
    [intros n; reflexivity|reflexivity|left; eexists; reflexivity
    |reflexivity|vm_compute; reflexivity].
Defined.

(** ** What a request leaves alone *)

Lemma update_song_effect (song_id : string) (song : SongUpdate.t) (w : World)
    (P : gmap string Item → Prop) :
  P (table w) →
  (∀ attrs, table w !! song_id = Some attrs →
     P (<[song_id := changed song attrs]> (table w))) →
  P (table (SongCRUD.update_song song_id song w).2).
Proof.
  intros Hsame Hset. destruct (outage w (length (calls w))) eqn:Ho.
  { unfold SongCRUD.update_song, try_except, mbind, M_bind.
    by rewrite get_song_by_id_outage. }
  destruct (severed w (length (calls w))) eqn:Hs.
  { unfold SongCRUD.update_song, try_except, mbind, M_bind.
    by rewrite get_song_by_id_severed. }
  assert (available w) as Hw by (unfold available; by rewrite Ho, Hs).
  destruct (holdable song_id) eqn:Hh.
  2:{ unfold SongCRUD.update_song, try_except, mbind, M_bind.
      by rewrite get_song_by_id_refused. }
  destruct (table w !! song_id) as [attrs|] eqn:Hk;
    [|by rewrite update_song_absent].
  destruct (decide (SongCRUD.update_expression_parts (SongCRUD.build song) = []))
    as [Hparts|Hparts];
    [by rewrite (update_song_nothing_to_set w song_id attrs)|].
  rewrite (update_song_existing w song_id attrs) by done.
  rewrite try_except_world by apply except_ClientError_world.
  rewrite bind_world by done. unfold update_item.
  apply (request_table _ _ (log_call (GetItem song_id) w)); [done|]. intros a t.
  unfold serve_update_item. fold (built song).
  destruct (built song) as [asg|] eqn:Hb; [|done].
  apply built_assignments in Hb as ->. simpl.
  change (table (log_call (GetItem song_id) w)) with (table w).
  rewrite Hk. simpl.
  rewrite foldl_assignments. destruct (_ && _); [|done]. intros [= _ <-].
  split; [by apply holdable_insert|by apply Hset].
Qed.

Lemma create_song_effect (song : SongCreate.t) (w : World)
    (P : gmap string Item → Prop) :
  P (table w) →
  P (<[fresh_id w := delete "id" (new_song (fresh_id w) song)]> (table w)) →
  P (table (SongCRUD.create_song song w).2).
Proof.
  intros Hsame Hput. unfold SongCRUD.create_song.
  rewrite try_except_world by apply except_ClientError_world.
  unfold mbind at 1, M_bind at 1, uuid4. rewrite bind_world by done.
  unfold put_item. fold (fresh_id w). fold (new_song (fresh_id w) song).
  apply (request_table _ _ (next_draw w)); [done|]. intros a t.
  unfold new_song at 1. rewrite lookup_insert_eq.
  destruct (_ && _); [|done]. intros [= _ <-].
  split; [apply (holdable_insert w), uuid_str_holdable|done].
Qed.

Lemma delete_song_effect (song_id : string) (w : World)
    (P : gmap string Item → Prop) :
  P (table w) → P (delete song_id (table w)) →
  P (table (SongCRUD.delete_song song_id w).2).
Proof.
  intros Hsame Hdel. unfold SongCRUD.delete_song.
  rewrite try_except_world by apply except_ClientError_world.
  rewrite bind_world by done. unfold delete_item.
  apply request_table; [done|]. intros a t.
  destruct (holdable song_id); [|done]. intros [= _ <-].
  split; [apply holdable_delete|done].
Qed.

Lemma app_effect (fuel : nat) (r : Request) (w : World)
    (P : gmap string Item → Prop) :
  P (table w) →
  (∀ song, r = DELETE_song song → P (delete song (table w))) →
  (∀ body song, r = POST_songs body → SongCreate.validate body = Some song →
     P (<[fresh_id w := delete "id" (new_song (fresh_id w) song)]> (table w))) →
  (∀ song_id body song attrs, r = PUT_song song_id body →
     SongUpdate.validate body = Some song → table w !! song_id = Some attrs →
     P (<[song_id := changed song attrs]> (table w))) →
  P (table (app fuel r w).2).
Proof.
  intros Hsame Hdel Hpost Hput.
  destruct r as [|body|song_id|song_id body|song_id]; simpl.
  - rewrite respond_world. unfold main.get_songs.
    rewrite try_except_world by apply always_500_world.
    rewrite bind_world by done. by rewrite get_all_songs_table.
  - destruct (SongCreate.validate body) as [song|] eqn:Hv; [|done].
    rewrite respond_world. unfold main.create_song.
    rewrite try_except_world by apply always_500_world.
    rewrite bind_world by done. apply create_song_effect; [done|].
    by apply (Hpost body).
  - rewrite respond_world. unfold main.get_song.
    rewrite try_except_world by apply reraise_or_500_world.
    rewrite bind_world by (by intros []). by rewrite get_song_by_id_table.
  - destruct (SongUpdate.validate body) as [song|] eqn:Hv; [|done].
    rewrite respond_world. unfold main.update_song.
    rewrite try_except_world by apply reraise_or_500_world.
    rewrite bind_world by (by intros []). apply update_song_effect; [done|].
    intros attrs Hk. by apply (Hput song_id body).
  - rewrite respond_world. unfold main.delete_song.
    rewrite try_except_world by apply reraise_or_500_world.
    rewrite bind_world by (by intros []). apply delete_song_effect; [done|].
    by apply Hdel.
Qed.

(** X10. A request writes under one key at most: the id of its path for
    an update or a delete, the generated id for a create.  Whatever the
    request and however the store behaves, the song under any other key is
    afterwards what it was. *)
Theorem other_songs_untouched (fuel : nat) (r : Request) (w : World)
    (other : string) :
  target w r ≠ Some other →
  table (app fuel r w).2 !! other = table w !! other.
Proof.
  intros Ht. apply app_effect; [done|..].
  - intros song ->. simpl in Ht. apply lookup_delete_ne. congruence.
  - intros body song -> _. simpl in Ht. apply lookup_insert_ne. congruence.
  - intros song_id body song attrs -> _ _. simpl in Ht.
    apply lookup_insert_ne. congruence.
Qed.

Lemma other_songs_untouched_witness :
  target two_songs (DELETE_song "s1") ≠ Some "s2" ∧
  table (app 0 (DELETE_song "s1") two_songs).2 !! "s2" = table two_songs !! "s2".
Proof.
  assert (target two_songs (DELETE_song "s1") ≠ Some "s2") as H by discriminate.
  split; [exact H|].
  exact (other_songs_untouched 0 (DELETE_song "s1") two_songs "s2" H).
Defined.

(** X11. The two reading routes never change the table, whether the store
    answers or fails and however many pages the listing follows. *)
Theorem reads_never_write (fuel : nat) (song_id : string) (w : World) :
  table (app fuel GET_songs w).2 = table w ∧
  table (app fuel (GET_song song_id) w).2 = table w.
Proof. split; by apply app_effect. Qed.

(** X12. An update never adds or removes a song: the set of ids in the
    table is the same after [PUT /songs/{id}] as before, whatever the body
    and the store. *)
Theorem update_keeps_keys (fuel : nat) (song_id : string)
    (body : gmap string JValue) (w : World) :
  dom (table (app fuel (PUT_song song_id body) w).2) = dom (table w).
Proof.
  apply app_effect; try done.
  intros k b song attrs [= -> ->] _ Hk. rewrite dom_insert_L.
  apply subseteq_union_1_L, singleton_subseteq_l. by apply elem_of_dom_2 in Hk.
Qed.

(** X13. Creating a song under an id that was free, with plays of at
    most 38 digits and an item of a size the store takes, and deleting that
    id gives back the created item and leaves the table as it was before
    the two. *)
Theorem create_then_delete (w : World) (song_data : SongCreate.t) :
  reliable w → table w !! fresh_id w = None →
  within_38_digits (SongCreate.plays song_data) = true →
  fits w (new_song (fresh_id w) song_data) = true →
  ∃ w1 w2,
    SongCRUD.create_song song_data w =
      (Return (new_song (fresh_id w) song_data), w1) ∧
    SongCRUD.delete_song (fresh_id w) w1 =
      (Return (Some (new_song (fresh_id w) song_data)), w2) ∧
    table w2 = table w.
Proof.
  intros Hw Hfresh Hn Hf. eexists _, _.
  rewrite create_song_answered by (done || apply Hw). split; [reflexivity|].
  rewrite delete_song_answered by (apply Hw || apply uuid_str_holdable).
  rewrite (table_set_table (<[fresh_id w := _]> (table w)))
    by apply (holdable_insert w), uuid_str_holdable.
  rewrite lookup_insert_eq. simpl.
  rewrite with_key_stored by apply lookup_insert_eq.
  split; [reflexivity|].
  rewrite table_set_table; [rewrite delete_insert_eq; by apply delete_id|].
  apply map_Forall_delete, (holdable_insert w), uuid_str_holdable.
Qed.

Lemma create_then_delete_witness :
  reliable two_songs ∧ table two_songs !! fresh_id two_songs = None ∧
  within_38_digits (SongCreate.plays imagine_input) = true ∧
  fits two_songs (new_song (fresh_id two_songs) imagine_input) = true ∧
  ∃ w1 w2,
    SongCRUD.create_song imagine_input two_songs =
      (Return (new_song (fresh_id two_songs) imagine_input), w1) ∧
    SongCRUD.delete_song (fresh_id two_songs) w1 =
      (Return (Some (new_song (fresh_id two_songs) imagine_input)), w2) ∧
    table w2 = table two_songs.
Proof.
  split; [intros n; reflexivity|]. split; [reflexivity|].
  split; [reflexivity|]. split; [vm_compute; reflexivity|].
  apply (create_then_delete two_songs imagine_input);
    [intros n; reflexivity|reflexivity|reflexivity|vm_compute; reflexivity].
Defined.

(** ** Validation of the bodies *)

Lemma str_too_long (min_length : option nat) (s : string) (n : nat) :
  (n < characters s)%nat → str_constraints min_length (Some n) s = false.
Proof.
  intros H. unfold str_constraints. apply andb_false_iff. right. simpl.
  apply Nat.leb_gt. done.
Qed.

(** Characters, not bytes, are counted: a name of 101 accented letters
    takes 202 bytes and passes the schema. *)
Example accented_name_accepted :
  String.length accented_name = 202%nat ∧ characters accented_name = 101%nat ∧
  SongCreate.validate (<["name" := JStr accented_name]> imagine_body) =
    Some (SongCreate.mk accented_name "https://x/imagine.mp3" 0).
Proof. vm_compute. done. Qed.

(** X14. A create request without [name], without [path], or with a name
    of more than 200 characters is answered 422 and the world is left as it
    was. *)
Theorem create_incomplete_rejected (fuel : nat) (w : World)
    (body : gmap string JValue) :
  body !! "name" = None ∨ body !! "path" = None ∨
    (∃ name, body !! "name" = Some (JStr name) ∧ (200 < characters name)%nat) →
  app fuel (POST_songs body) w = (Return (mkResponse 422 ValidationErrors), w).
Proof.
  intros H. unfold app.
  assert (SongCreate.validate body = None) as ->; [|done].
  unfold SongCreate.validate.
  destruct H as [-> | [Hp | (name & -> & Hlen)]]; [done| |].
  - destruct (required_str _ _ (body !! "name")); [|done]. simpl. by rewrite Hp.
  - simpl. by rewrite str_too_long.
Qed.

Lemma create_incomplete_rejected_witness :
  (delete "path" imagine_body !! "name" = None ∨
   delete "path" imagine_body !! "path" = None ∨
   ∃ name, delete "path" imagine_body !! "name" = Some (JStr name) ∧
           (200 < characters name)%nat) ∧
  app 0 (POST_songs (delete "path" imagine_body)) two_songs =
    (Return (mkResponse 422 ValidationErrors), two_songs).
Proof.
  assert (delete "path" imagine_body !! "name" = None ∨
          delete "path" imagine_body !! "path" = None ∨
          ∃ name, delete "path" imagine_body !! "name" = Some (JStr name) ∧
                  (200 < characters name)%nat) as H.
  { right. left. reflexivity. }
  split; [exact H|].
  exact (create_incomplete_rejected 0 two_songs (delete "path" imagine_body) H).
Defined.

(** X15. An update request whose name is empty or longer than 200
    characters, or whose plays is negative, is answered 422; no request
    reaches the table. *)
Theorem update_invalid_rejected (fuel : nat) (w : World) (song_id : string)
    (body : gmap string JValue) :
  body !! "name" = Some (JStr "") ∨
    (∃ name, body !! "name" = Some (JStr name) ∧ (200 < characters name)%nat) ∨
    (∃ plays, body !! "plays" = Some (JInt plays) ∧ plays < 0) →
  app fuel (PUT_song song_id body) w = (Return (mkResponse 422 ValidationErrors), w).
Proof.
  intros H. unfold app.
  assert (SongUpdate.validate body = None) as ->; [|done].
  unfold SongUpdate.validate.
  destruct H as [-> | [(name & -> & Hlen) | (plays & -> & Hneg)]]; [done| |].
  - simpl. by rewrite str_too_long.
  - destruct (optional_str _ _ (body !! "name")); [|done]. simpl.
    destruct (optional_str _ _ (body !! "path")); [|done]. simpl.
    by destruct (Z.leb_spec 0 plays); [lia|].
Qed.

Lemma update_invalid_rejected_witness :
  (∃ plays, ({[ "plays" := JInt (-3) ]} : gmap string JValue) !! "plays" =
              Some (JInt plays) ∧ plays < 0) ∧
  app 0 (PUT_song "s1" {[ "plays" := JInt (-3) ]}) two_songs =
    (Return (mkResponse 422 ValidationErrors), two_songs).
Proof.
  assert (∃ plays, ({[ "plays" := JInt (-3) ]} : gmap string JValue) !! "plays" =
                     Some (JInt plays) ∧ plays < 0) as H.
  { exists (-3). split; [reflexivity|lia]. }
  split; [exact H|].
  exact (update_invalid_rejected 0 two_songs "s1" {[ "plays" := JInt (-3) ]}
           (or_intror (or_intror H))).
Defined.

Lemma optional_str_null (min_length max_length : option nat)
    (body : gmap string JValue) (field attr : string) :
  optional_str min_length max_length (<[field := JNull]> body !! attr) =
  optional_str min_length max_length (delete field body !! attr).
Proof.
  destruct (decide (field = attr)) as [->|Hne].
  - by rewrite lookup_insert_eq, lookup_delete_eq.
  - by rewrite lookup_insert_ne, lookup_delete_ne.
Qed.

Lemma optional_int_null (ge : Z) (body : gmap string JValue) (field attr : string) :
  optional_int ge (<[field := JNull]> body !! attr) =
  optional_int ge (delete field body !! attr).
Proof.
  destruct (decide (field = attr)) as [->|Hne].
  - by rewrite lookup_insert_eq, lookup_delete_eq.
  - by rewrite lookup_insert_ne, lookup_delete_ne.
Qed.

(** X16. In an update request a field given as [null] counts as a field
    left out: the two bodies validate alike and the two requests have the
    same answer and the same effect. *)
Theorem update_null_is_omitted (fuel : nat) (w : World) (song_id field : string)
    (body : gmap string JValue) :
  SongUpdate.validate (<[field := JNull]> body) = SongUpdate.validate (delete field body) ∧
  app fuel (PUT_song song_id (<[field := JNull]> body)) w =
    app fuel (PUT_song song_id (delete field body)) w.
Proof.
  assert (SongUpdate.validate (<[field := JNull]> body) =
          SongUpdate.validate (delete field body)) as Hv.
  { unfold SongUpdate.validate.
    by rewrite !optional_str_null, optional_int_null. }
  split; [done|]. unfold app. by rewrite Hv.
Qed.

(** ** Every persisted song can be rendered *)

Lemma validate_with_key (song_id : string) (attrs : Item) :
  is_Some (SongResponse.validate (with_key song_id attrs)) ↔
  (∃ name, attrs !! "name" = Some (AttrS name) ∧
           str_constraints (Some 1%nat) (Some 200%nat) name = true) ∧
  (∃ path, attrs !! "path" = Some (AttrS path)) ∧
  (attrs !! "plays" = None ∨ ∃ plays, attrs !! "plays" = Some (AttrN plays) ∧ 0 ≤ plays).
Proof.
  unfold SongResponse.validate, with_key. rewrite !lookup_fmap.
  rewrite lookup_insert_eq, !lookup_insert_ne by done. simpl. split.
  - intros [song H].
    destruct (required_str _ _ (to_json <$> attrs !! "name")) as [n|] eqn:Hn; [|done].
    destruct (required_str _ _ (to_json <$> attrs !! "path")) as [p|] eqn:Hp; [|done].
    destruct (defaulted_int _ _ (to_json <$> attrs !! "plays")) as [z|] eqn:Hz; [|done].
    apply required_str_Some in Hn as [Hn Hc], Hp as [Hp _].
    apply defaulted_int_Some in Hz.
    split_and!.
    + destruct (attrs !! "name") as [[]|]; simplify_eq/=. by eexists.
    + destruct (attrs !! "path") as [[]|]; simplify_eq/=. by eexists.
    + destruct (attrs !! "plays") as [[]|]; destruct Hz as [[? ?]|[? ?]];
        simplify_eq/=; [right; by eexists|by left].
  - intros ((n & -> & Hn) & (p & ->) & Hz). simpl. rewrite Hn. simpl.
    destruct Hz as [-> | (z & -> & Hz)]; simpl; [by eexists|].
    destruct (Z.leb_spec 0 z); [by eexists|lia].
Qed.

Lemma new_song_renderable (song_id : string) (song : SongCreate.t) :
  valid_create song = true →
  is_Some (SongResponse.validate (new_song song_id song)).
Proof.
  intros Hv. pose proof (render_new_song song_id song Hv) as H.
  unfold render_song in H.
  by destruct (SongResponse.validate (new_song song_id song)).
Qed.

Lemma changed_renderable (song_id : string) (attrs : Item) (song : SongUpdate.t) :
  valid_update song = true →
  is_Some (SongResponse.validate (with_key song_id attrs)) →
  is_Some (SongResponse.validate (with_key song_id (changed song attrs))).
Proof.
  unfold valid_update. intros [Hn Hz]%andb_true_iff.
  rewrite !validate_with_key, changed_name, changed_path, changed_plays.
  intros (Hname & Hpath & Hplays). split_and!.
  - destruct (SongUpdate.name song) as [n|]; [|done]. by exists n.
  - destruct (SongUpdate.path song) as [p|]; [|done]. by exists p.
  - destruct (SongUpdate.plays song) as [z|]; [|done]. right. exists z.
    split; [done|]. by apply Z.leb_le.
Qed.

Lemma table_step_renderable (w : World) (t : gmap string Item) :
  renderable (table w) → table_step w t → renderable t.
Proof.
  unfold renderable. intros Hinv Hstep.
  destruct Hstep as [|song_id|song Hv|song_id attrs song Hv Hk].
  - done.
  - by apply map_Forall_delete.
  - apply map_Forall_insert_2; [|done].
    rewrite with_key_stored by apply lookup_insert_eq.
    by apply new_song_renderable.
  - apply map_Forall_insert_2; [|done].
    apply changed_renderable; [done|]. by apply (Hinv song_id).
Qed.

(** X17. If every persisted song passes the response model, so it is
    after any sequence of requests: what creates and updates write can
    always be rendered. *)
Theorem renderable_after_requests (fuel : nat) (rs : list Request) (w : World) :
  renderable (table w) → renderable (table (serve_all fuel rs w)).
Proof.
  revert w. induction rs as [|r rs IH]; intros w Hinv; simpl; [done|].
  apply IH. eapply table_step_renderable; [done|apply app_step].
Qed.

Lemma renderable_after_requests_witness :
  renderable (table empty_world) ∧
  renderable (table (serve_all 1
    [POST_songs imagine_body; GET_songs;
     PUT_song (fresh_id empty_world) {[ "name" := JStr "Imagine (live)" ]}]
    empty_world)).
Proof.
  assert (renderable (table empty_world)) as H by apply map_Forall_empty.
  split; [exact H|].
  exact (renderable_after_requests 1 _ empty_world H).
Defined.

(** ** Listing through the endpoint *)

(** X18. With a store that serves a scan in pages of any positive size,
    [GET /songs] is answered 200 with every persisted song rendered, as
    many as the table has, after following all the cursors. *)
Theorem list_returns_persisted (limit : nat) (w : World)
    (songs : list SongResponse.t) :
  reliable w → pager w = page_by limit → (0 < limit)%nat →
  mapM SongResponse.validate (persisted (table w)) = Some songs →
  ∃ w',
    app (size (table w)) GET_songs w = (Return (mkResponse 200 (Songs songs)), w') ∧
    length songs = size (table w) ∧ table w' = table w.
Proof.
  intros Hw Hpager Hlimit Hsongs.
  destruct (get_all_songs_page_by limit w Hw Hpager Hlimit) as (w' & Hlist & Ht).
  exists w'. unfold app, respond, main.get_songs, try_except, mbind, M_bind.
  rewrite Hlist. simpl. rewrite Hsongs. simpl. split; [done|]. split; [|done].
  apply length_mapM in Hsongs. rewrite <- Hsongs. unfold persisted.
  by rewrite length_fmap, length_map_to_list.
Qed.

Lemma list_returns_persisted_witness :
  reliable two_songs ∧ pager two_songs = page_by 1 ∧ (0 < 1)%nat ∧
  mapM SongResponse.validate (persisted (table two_songs)) =
    Some [imagine_response; yesterday_response] ∧
  ∃ w',
    app (size (table two_songs)) GET_songs two_songs =
      (Return (mkResponse 200 (Songs [imagine_response; yesterday_response])), w') ∧
    length [imagine_response; yesterday_response] = size (table two_songs) ∧
    table w' = table two_songs.
Proof.
  split; [intros n; reflexivity|]. split; [reflexivity|]. split; [lia|].
  split; [reflexivity|].
  apply (list_returns_persisted 1 two_songs [imagine_response; yesterday_response]);
    [intros n; reflexivity|reflexivity|lia|reflexivity].
Defined.

(** X19. When the first page comes with a cursor and the store fails the
    request for the next page, the listing raises, the items of the first
    page are not returned, and [GET /songs] is answered 500. *)
Theorem list_fails_midway (fuel : nat) (w : World) (key : string) :
  available w → LastEvaluatedKey (pager w (table w) None) = Some key →
  outage w (S (length (calls w))) = true →
  ∃ w',
    SongCRUD.get_all_songs (S fuel) w =
      (Raise (Exception "Failed to retrieve songs"), w') ∧
    calls w' = calls w ++ [Scan None; Scan (Some key)] ∧
    app (S fuel) GET_songs w =
      (Return (mkResponse 500 (Detail "Failed to retrieve songs")), w').
Proof.
  intros Hw Hkey Ho.
  assert (SongCRUD.get_all_songs (S fuel) w =
      (Raise (Exception "Failed to retrieve songs"),
       log_call (Scan (Some key)) (log_call (Scan None) w))) as Hlist.
  { unfold SongCRUD.get_all_songs, try_except, mbind, M_bind.
    rewrite scan_answered by done. simpl. rewrite Hkey.
    unfold mbind, M_bind, scan.
    rewrite request_outage; [done|apply sendable_empty|].
    simpl. by rewrite length_app, Nat.add_comm. }
  eexists. split; [exact Hlist|]. split; [simpl; by rewrite <- app_assoc|].
  unfold app, respond, main.get_songs, try_except, mbind, M_bind.
  by rewrite Hlist.
Qed.

Lemma list_fails_midway_witness :
  available (fails_second two_songs) ∧
  LastEvaluatedKey (pager (fails_second two_songs)
                      (table (fails_second two_songs)) None) = Some "s1" ∧
  outage (fails_second two_songs) (S (length (calls (fails_second two_songs)))) = true ∧
  ∃ w',
    SongCRUD.get_all_songs 1 (fails_second two_songs) =
      (Raise (Exception "Failed to retrieve songs"), w') ∧
    calls w' = calls (fails_second two_songs) ++ [Scan None; Scan (Some "s1")] ∧
    app 1 GET_songs (fails_second two_songs) =
      (Return (mkResponse 500 (Detail "Failed to retrieve songs")), w').
Proof.
  split; [reflexivity|]. split; [reflexivity|]. split; [reflexivity|].
  apply (list_fails_midway 0 (fails_second two_songs) "s1"); reflexivity.
Defined.

(** ** The probes *)

(** X20. [GET /health] never writes, and it either returns the healthy
    body or raises [HTTPException] 503 (or is still following cursors):
    no other status and no other exception comes out of it. *)
Theorem health_check_outcome (fuel : nat) (w : World) :
  table (main.health_check fuel w).2 = table w ∧
  ((main.health_check fuel w).1 = Return healthy ∨
   (main.health_check fuel w).1 = Raise (HTTPException 503 "Service unhealthy") ∨
   (main.health_check fuel w).1 = Diverge).
Proof.
  unfold main.health_check. split.
  - rewrite try_except_world by (unfold main.unhealthy; intros; by simplify_eq).
    rewrite bind_world by done. apply get_all_songs_table.
  - unfold try_except, mbind, M_bind.
    destruct (SongCRUD.get_all_songs fuel w) as [[songs|e|] w']; simpl; auto.
Qed.

(** X21. When the store fails, the health probe raises 503 and the startup
    probe raises the exception of the listing again, so the application
    does not start; neither writes. *)
Theorem probes_fail_with_the_store (fuel : nat) (w : World) :
  outage w (length (calls w)) = true →
  (main.health_check fuel w).1 = Raise (HTTPException 503 "Service unhealthy") ∧
  (main.lifespan fuel w).1 = Raise (Exception "Failed to retrieve songs") ∧
  table (main.lifespan fuel w).2 = table w.
Proof.
  intros Ho.
  assert (SongCRUD.get_all_songs fuel w =
    (Raise (Exception "Failed to retrieve songs"), log_call (Scan None) w)) as H.
  { unfold SongCRUD.get_all_songs, try_except, mbind, M_bind, scan.
    by rewrite request_outage by (done || apply sendable_empty). }
  unfold main.health_check, main.lifespan, try_except, mbind, M_bind.
  by rewrite H.
Qed.

Lemma probes_fail_with_the_store_witness :
  outage (store_down two_songs) (length (calls (store_down two_songs))) = true ∧
  (main.health_check 0 (store_down two_songs)).1 =
    Raise (HTTPException 503 "Service unhealthy") ∧
  (main.lifespan 0 (store_down two_songs)).1 =
    Raise (Exception "Failed to retrieve songs") ∧
  table (main.lifespan 0 (store_down two_songs)).2 = table (store_down two_songs).
Proof.
  split; [reflexivity|].
  apply (probes_fail_with_the_store 0 (store_down two_songs)); reflexivity.
Defined.

(** ** The table handle of [database.py] *)

Lemma boto3_config (c : database.Call) (s : database.State) :
  database.db_config (database.boto3 c s).2 = database.db_config s.
Proof. unfold database.boto3. by destruct (database.fails s _). Qed.

(** X22. Once [get_table] has returned a handle it returns that handle
    again without another call to boto3 and without changing the
    configuration; the handle is never [None]. *)
Theorem table_is_kept (s s' : database.State) (handle : option string) :
  database.get_table s = (database.Ok handle, s') →
  is_Some handle ∧ database.get_table s' = (database.Ok handle, s').
Proof.
  unfold database.get_table, database.table.
  destruct (database._table (database.db_config s)) as [t|] eqn:Ht.
  - intros [= <- <-]. rewrite Ht. by split; [eexists|].
  - destruct (database.dynamodb_resource s) as [[r|e] s1] eqn:Hr.
    + pose proof (boto3_config (database.Load (database.table_name (database.db_config s1)))
        (database.set_table_handle (Some (database.table_name (database.db_config s1))) s1))
        as Hc.
      destruct (database.boto3 _ _) as [[u|e] s2]; simpl in Hc.
      * intros [= <- <-]. rewrite Hc. simpl. by split; [eexists|].
      * destruct e; try done. by destruct (bool_decide _).
    + destruct e; try done. by destruct (bool_decide _).
Qed.

Lemma table_is_kept_witness :
  database.get_table (fresh_state no_faults) =
    (database.Ok (Some "TBL_SONG"), (database.get_table (fresh_state no_faults)).2) ∧
  is_Some (Some "TBL_SONG") ∧
  database.get_table (database.get_table (fresh_state no_faults)).2 =
    (database.Ok (Some "TBL_SONG"), (database.get_table (fresh_state no_faults)).2).
Proof.
  split; [reflexivity|].
  apply (table_is_kept (fresh_state no_faults)). reflexivity.
Defined.

Lemma dynamodb_resource_made (s : database.State) :
  database._dynamodb_resource (database.db_config s) = None →
  database.fails s (length (database.requests s)) = None →
  database.dynamodb_resource s =
    (database.Ok (database.region_name (database.db_config s)),
     database.set_resource (Some (database.region_name (database.db_config s)))
       (database.mkState (database.db_config s) (database.fails s)
          (database.requests s ++
             [database.Resource (database.region_name (database.db_config s))]))).
Proof.
  intros Hr H0. unfold database.dynamodb_resource, database.boto3.
  by rewrite Hr, H0.
Qed.

Lemma load_fails_after_resource (s : database.State) (e : database.Error) :
  database._table (database.db_config s) = None →
  database._dynamodb_resource (database.db_config s) = None →
  database.fails s (length (database.requests s)) = None →
  database.fails s (S (length (database.requests s))) = Some e →
  database.get_table s =
    (match e with
     | database.ClientError code =>
         if bool_decide (code = "ResourceNotFoundException")
         then database.Err (database.ValueError
                ("Table " +:+ database.table_name (database.db_config s) +:+
                 " does not exist"))
         else database.Err e
     | _ => database.Err e
     end,
     database.mkState
       (database.mkConfig (database.region_name (database.db_config s))
          (database.table_name (database.db_config s))
          (Some (database.region_name (database.db_config s)))
          (Some (database.table_name (database.db_config s))))
       (database.fails s)
       (database.requests s ++
          [database.Resource (database.region_name (database.db_config s));
           database.Load (database.table_name (database.db_config s))])).
Proof.
  intros Ht Hr H0 H1. unfold database.get_table, database.table.
  rewrite Ht, dynamodb_resource_made by done.
  unfold database.boto3. simpl. rewrite length_app, Nat.add_comm. simpl.
  rewrite H1, <- app_assoc. simpl.
  destruct e as [|code|msg|msg]; try done. by destruct (bool_decide _).
Qed.

(** X23. On first use, when the resource is made and loading the table
    fails with a [ClientError], [get_table] raises [ValueError] naming the
    table if the code is [ResourceNotFoundException] and the [ClientError]
    itself otherwise; the two calls made are the resource and the load. *)
Theorem table_missing (s : database.State) (code : string) :
  database._table (database.db_config s) = None →
  database._dynamodb_resource (database.db_config s) = None →
  database.fails s (length (database.requests s)) = None →
  database.fails s (S (length (database.requests s))) =
    Some (database.ClientError code) →
  (database.get_table s).1 =
    (if bool_decide (code = "ResourceNotFoundException")
     then database.Err (database.ValueError
            ("Table " +:+ database.table_name (database.db_config s) +:+
             " does not exist"))
     else database.Err (database.ClientError code)) ∧
  database.requests (database.get_table s).2 =
    database.requests s ++
      [database.Resource (database.region_name (database.db_config s));
       database.Load (database.table_name (database.db_config s))].
Proof.
  intros Ht Hr H0 H1.
  by rewrite (load_fails_after_resource s _ Ht Hr H0 H1).
Qed.

Lemma table_missing_witness :
  database._table (database.db_config
    (fresh_state (fault_at 1 (database.ClientError "ResourceNotFoundException")))) = None ∧
  database._dynamodb_resource (database.db_config
    (fresh_state (fault_at 1 (database.ClientError "ResourceNotFoundException")))) = None ∧
  (database.get_table
     (fresh_state (fault_at 1 (database.ClientError "ResourceNotFoundException")))).1 =
    database.Err (database.ValueError "Table TBL_SONG does not exist").
Proof.
  split; [reflexivity|]. split; [reflexivity|].
  apply (table_missing
    (fresh_state (fault_at 1 (database.ClientError "ResourceNotFoundException")))
    "ResourceNotFoundException"); reflexivity.
Defined.

(** X24. The handle is stored before the table is loaded: after a first
    use that failed at the load, for whatever reason, the next [get_table]
    returns the handle without loading the table again. *)
Theorem table_unverified_after_failure (s : database.State) (e : database.Error) :
  database._table (database.db_config s) = None →
  database._dynamodb_resource (database.db_config s) = None →
  database.fails s (length (database.requests s)) = None →
  database.fails s (S (length (database.requests s))) = Some e →
  ∃ e' s',
    database.get_table s = (database.Err e', s') ∧
    database.get_table s' =
      (database.Ok (Some (database.table_name (database.db_config s))), s').
Proof.
  intros Ht Hr H0 H1.
  rewrite (load_fails_after_resource s _ Ht Hr H0 H1).
  destruct e as [|code|msg|msg]; try destruct (bool_decide _);
    eexists _, _; (split; [reflexivity|]); reflexivity.
Qed.

Lemma table_unverified_after_failure_witness :
  database.fails
    (fresh_state (fault_at 1 (database.ClientError "ResourceNotFoundException")))
    1%nat = Some (database.ClientError "ResourceNotFoundException") ∧
  ∃ e' s',
    database.get_table
      (fresh_state (fault_at 1 (database.ClientError "ResourceNotFoundException"))) =
      (database.Err e', s') ∧
    database.get_table s' = (database.Ok (Some "TBL_SONG"), s').
Proof.
  split; [reflexivity|].
  apply (table_unverified_after_failure
    (fresh_state (fault_at 1 (database.ClientError "ResourceNotFoundException")))
    (database.ClientError "ResourceNotFoundException")); reflexivity.
Defined.

(** X25. When making the resource fails for want of credentials,
    [get_table] raises that error, the table is not asked for and nothing
    is stored, so that the next use starts over. *)
Theorem no_credentials_nothing_kept (s : database.State) :
  database._table (database.db_config s) = None →
  database._dynamodb_resource (database.db_config s) = None →
  database.fails s (length (database.requests s)) = Some database.NoCredentialsError →
  (database.get_table s).1 = database.Err database.NoCredentialsError ∧
  database.db_config (database.get_table s).2 = database.db_config s ∧
  database.requests (database.get_table s).2 =
    database.requests s ++
      [database.Resource (database.region_name (database.db_config s))].
Proof.
  intros Ht Hr H0.
  unfold database.get_table, database.table, database.dynamodb_resource.
  rewrite Ht, Hr. unfold database.boto3. by rewrite H0.
Qed.

Lemma no_credentials_nothing_kept_witness :
  database.fails (fresh_state (fault_at 0 database.NoCredentialsError)) 0%nat =
    Some database.NoCredentialsError ∧
  (database.get_table (fresh_state (fault_at 0 database.NoCredentialsError))).1 =
    database.Err database.NoCredentialsError ∧
  database.db_config
    (database.get_table (fresh_state (fault_at 0 database.NoCredentialsError))).2 =
    database.db_config (fresh_state (fault_at 0 database.NoCredentialsError)) ∧
  database.requests
    (database.get_table (fresh_state (fault_at 0 database.NoCredentialsError))).2 =
    database.requests (fresh_state (fault_at 0 database.NoCredentialsError)) ++
      [database.Resource (database.region_name (database.db_config
         (fresh_state (fault_at 0 database.NoCredentialsError))))].
Proof.
  split; [reflexivity|].
  apply (no_credentials_nothing_kept
    (fresh_state (fault_at 0 database.NoCredentialsError))); reflexivity.
Defined.


(** ** The provisioning script *)

Lemma send_cases (c : create_table.Call) (serve : create_table.Aws → string + create_table.Aws)
    (a : create_table.Aws) :
  (∃ e, create_table.send c serve a =
          (create_table.Raised e,
           create_table.mkAws (create_table.exists_ a) (create_table.backups a)
             (create_table.faults a) (create_table.sent a ++ [c]))) ∨
  (∃ a', serve a = inr a' ∧
         create_table.send c serve a =
           (create_table.Done (),
            create_table.mkAws (create_table.exists_ a') (create_table.backups a')
              (create_table.faults a') (create_table.sent a ++ [c]))).
Proof.
  unfold create_table.send.
  destruct (create_table.faults a _) as [e|]; [left; by eexists|].
  destruct (serve a) as [code|a']; [left; by eexists|right; by eexists].
Qed.

Lemma load_cases (name : string) (a : create_table.Aws) :
  let a' := create_table.mkAws (create_table.exists_ a) (create_table.backups a)
              (create_table.faults a)
              (create_table.sent a ++ [create_table.Load name]) in
  (∃ e, create_table.load name a = (create_table.Raised e, a')) ∨
  (name ∈ create_table.exists_ a ∧ create_table.load name a = (create_table.Done (), a')).
Proof.
  intros a'. unfold create_table.load.
  destruct (send_cases (create_table.Load name)
    (λ a, if bool_decide (name ∈ create_table.exists_ a) then inr a
          else inl "ResourceNotFoundException") a) as [[e ->]|(a1 & Hs & ->)].
  - left. by eexists.
  - right. destruct (bool_decide (name ∈ create_table.exists_ a)) eqn:Hin; [|done].
    apply bool_decide_eq_true in Hin. by simplify_eq.
Qed.

Lemma table_exists_cases (self : create_table.DynamoDBTableManager)
    (a : create_table.Aws) :
  let a' := create_table.mkAws (create_table.exists_ a) (create_table.backups a)
              (create_table.faults a)
              (create_table.sent a ++
                 [create_table.Load (create_table.table_name self)]) in
  (∃ e, create_table.table_exists self a = (create_table.Raised e, a')) ∨
  create_table.table_exists self a = (create_table.Done false, a') ∨
  (create_table.table_name self ∈ create_table.exists_ a ∧
   create_table.table_exists self a = (create_table.Done true, a')).
Proof.
  intros a'. unfold create_table.table_exists.
  destruct (load_cases (create_table.table_name self) a) as [[e ->]|[Hin ->]].
  - destruct e as [|code|msg|msg]; try (left; by eexists).
    destruct (bool_decide _); [right; by left|left; by eexists].
  - right. by right.
Qed.

Local Ltac run_script :=
  unfold create_table.main, create_table.init, create_table.describe_table,
    create_table.create_table, create_table.create_table_body,
    create_table.table_exists, create_table.load, create_table.create,
    create_table.resource,
    create_table.wait_until_exists, create_table.update_continuous_backups,
    create_table.send; simpl.

Lemma create_table_returns (self : create_table.DynamoDBTableManager)
    (a : create_table.Aws) :
  ∃ b, (create_table.create_table self a).1 = create_table.Done b.
Proof.
  run_script. repeat (case_match; simplify_eq/=); eauto.
Qed.

Lemma create_table_true_exists (self : create_table.DynamoDBTableManager)
    (a a' : create_table.Aws) :
  create_table.create_table self a = (create_table.Done true, a') →
  create_table.table_name self ∈ create_table.exists_ a'.
Proof.
  run_script. intros H.
  repeat (case_match; simplify_eq/=);
    try (match goal with H : bool_decide _ = true |- _ =>
           apply bool_decide_eq_true in H end);
    try done; apply elem_of_union; left; by apply elem_of_singleton.
Qed.

Lemma create_table_keeps_tables (self : create_table.DynamoDBTableManager)
    (a : create_table.Aws) :
  create_table.exists_ a ⊆ create_table.exists_ (create_table.create_table self a).2.
Proof.
  run_script. repeat (case_match; simplify_eq/=); try done;
    apply union_subseteq_r.
Qed.

(** X26. [create_table] never raises: it returns [True] or [False].  When
    it returns [True] the table is there, and no table that was there
    before is gone, whatever it returns. *)
Theorem create_table_outcome (self : create_table.DynamoDBTableManager)
    (a : create_table.Aws) :
  ∃ b,
    (create_table.create_table self a).1 = create_table.Done b ∧
    (b = true →
     create_table.table_name self ∈
       create_table.exists_ (create_table.create_table self a).2) ∧
    create_table.exists_ a ⊆
      create_table.exists_ (create_table.create_table self a).2.
Proof.
  destruct (create_table_returns self a) as [b Hb]. exists b.
  split; [done|]. split; [|apply create_table_keeps_tables].
  intros ->. apply (create_table_true_exists self a).
  destruct (create_table.create_table self a) as [o a']. simpl in *. by subst o.
Qed.

(** X27. When the table is there, [create_table] returns [True] after the
    one request that looks for it: nothing is created and the account is
    as it was. *)
Theorem create_table_when_there (self : create_table.DynamoDBTableManager)
    (a : create_table.Aws) :
  create_table.table_name self ∈ create_table.exists_ a →
  create_table.faults a (length (create_table.sent a)) = None →
  create_table.create_table self a =
    (create_table.Done true,
     create_table.mkAws (create_table.exists_ a) (create_table.backups a)
       (create_table.faults a)
       (create_table.sent a ++ [create_table.Load (create_table.table_name self)])).
Proof.
  intros Hin H0. run_script. rewrite H0.
  by rewrite bool_decide_eq_true_2.
Qed.

Lemma create_table_when_there_witness :
  create_table.table_name songs_manager ∈ create_table.exists_ account_with_table ∧
  create_table.faults account_with_table
    (length (create_table.sent account_with_table)) = None ∧
  create_table.create_table songs_manager account_with_table =
    (create_table.Done true,
     create_table.mkAws (create_table.exists_ account_with_table)
       (create_table.backups account_with_table)
       (create_table.faults account_with_table)
       (create_table.sent account_with_table ++
          [create_table.Load (create_table.table_name songs_manager)])).
Proof.
  assert (create_table.table_name songs_manager ∈
            create_table.exists_ account_with_table) as H
    by reflexivity.
  split; [exact H|]. split; [reflexivity|].
  exact (create_table_when_there songs_manager account_with_table H eq_refl).
Defined.

Lemma send_served (c : create_table.Call)
    (serve : create_table.Aws → string + create_table.Aws)
    (a a' : create_table.Aws) :
  create_table.faults a (length (create_table.sent a)) = None →
  serve a = inr a' →
  create_table.send c serve a =
    (create_table.Done (),
     create_table.mkAws (create_table.exists_ a') (create_table.backups a')
       (create_table.faults a') (create_table.sent a ++ [c])).
Proof. unfold create_table.send. by intros -> ->. Qed.

Lemma send_faulted (c : create_table.Call)
    (serve : create_table.Aws → string + create_table.Aws)
    (a : create_table.Aws) (e : database.Error) :
  create_table.faults a (length (create_table.sent a)) = Some e →
  create_table.send c serve a =
    (create_table.Raised e,
     create_table.mkAws (create_table.exists_ a) (create_table.backups a)
       (create_table.faults a) (create_table.sent a ++ [c])).
Proof. unfold create_table.send. by intros ->. Qed.

Local Ltac next_fault H :=
  simpl; rewrite ?length_app; simpl; rewrite ?Nat.add_1_r; exact H.

(** X28. When the table is missing and the first three requests are
    served, [create_table] looks for the table, creates it, waits for it
    and asks for point-in-time recovery, in this order, and returns
    [True] with the table there, also when that last request fails; when
    it is served, recovery is on. *)
Theorem create_table_when_missing (self : create_table.DynamoDBTableManager)
    (a : create_table.Aws) :
  create_table.table_name self ∉ create_table.exists_ a →
  create_table.faults a (length (create_table.sent a)) = None →
  create_table.faults a (S (length (create_table.sent a))) = None →
  create_table.faults a (S (S (length (create_table.sent a)))) = None →
  ∃ a',
    create_table.create_table self a = (create_table.Done true, a') ∧
    create_table.exists_ a' =
      {[create_table.table_name self]} ∪ create_table.exists_ a ∧
    create_table.sent a' =
      create_table.sent a ++
        [create_table.Load (create_table.table_name self);
         create_table.CreateTable (create_table.table_name self);
         create_table.WaitUntilExists (create_table.table_name self);
         create_table.UpdateContinuousBackups (create_table.table_name self)] ∧
    (create_table.faults a (S (S (S (length (create_table.sent a))))) = None →
     create_table.table_name self ∈ create_table.backups a').
Proof.
  intros Hout H0 H1 H2.
  unfold create_table.create_table, create_table.create_table_body,
    create_table.table_exists, create_table.load.
  unfold create_table.send at 1. rewrite H0.
  rewrite (bool_decide_eq_false_2 _ Hout). simpl.
  unfold create_table.create.
  erewrite send_served;
    [|next_fault H1|simpl; by rewrite (bool_decide_eq_false_2 _ Hout)].
  unfold create_table.wait_until_exists.
  erewrite send_served; [|next_fault H2|reflexivity]. simpl.
  unfold create_table.update_continuous_backups.
  destruct (create_table.faults a (S (S (S (length (create_table.sent a))))))
    as [e|] eqn:H3.
  - erewrite send_faulted; [|next_fault H3].
    eexists. split; [reflexivity|]. simpl. split; [done|].
    split; [by rewrite <- !app_assoc|done].
  - erewrite send_served; [|next_fault H3|].
    2:{ simpl. rewrite bool_decide_eq_true_2; [reflexivity|].
        apply elem_of_union; left; by apply elem_of_singleton. }
    eexists. split; [reflexivity|]. simpl. split; [done|].
    split; [by rewrite <- !app_assoc|].
    intros _. apply elem_of_union; left; by apply elem_of_singleton.
Qed.

Lemma create_table_when_missing_witness :
  (create_table.table_name songs_manager ∉ create_table.exists_ fresh_account) ∧
  ∃ a',
    create_table.create_table songs_manager fresh_account =
      (create_table.Done true, a') ∧
    create_table.exists_ a' =
      {[create_table.table_name songs_manager]} ∪ create_table.exists_ fresh_account ∧
    create_table.sent a' =
      create_table.sent fresh_account ++
        [create_table.Load (create_table.table_name songs_manager);
         create_table.CreateTable (create_table.table_name songs_manager);
         create_table.WaitUntilExists (create_table.table_name songs_manager);
         create_table.UpdateContinuousBackups (create_table.table_name songs_manager)] ∧
    (create_table.faults fresh_account
       (S (S (S (length (create_table.sent fresh_account))))) = None →
     create_table.table_name songs_manager ∈ create_table.backups a').
Proof.
  assert (create_table.table_name songs_manager ∉
            create_table.exists_ fresh_account) as H
    by apply not_elem_of_empty.
  split; [exact H|].
  exact (create_table_when_missing songs_manager fresh_account H
           eq_refl eq_refl eq_refl).
Defined.

(** X29. When looking for the table fails with anything but "not found",
    [create_table] returns [False] without trying to create the table. *)
Theorem create_table_lookup_fails (self : create_table.DynamoDBTableManager)
    (a : create_table.Aws) (e : database.Error) :
  create_table.faults a (length (create_table.sent a)) = Some e →
  e ≠ database.ClientError "ResourceNotFoundException" →
  create_table.create_table self a =
    (create_table.Done false,
     create_table.mkAws (create_table.exists_ a) (create_table.backups a)
       (create_table.faults a)
       (create_table.sent a ++ [create_table.Load (create_table.table_name self)])).
Proof.
  intros H0 He.
  unfold create_table.create_table, create_table.create_table_body,
    create_table.table_exists, create_table.load.
  rewrite (send_faulted _ _ _ e) by done.
  destruct e as [|code|msg|msg]; try done.
  rewrite bool_decide_eq_false_2; [done|]. congruence.
Qed.

Lemma create_table_lookup_fails_witness :
  create_table.faults
    (create_table.mkAws ∅ ∅ (fault_at 0 (database.ClientError "AccessDeniedException")) [])
    0%nat = Some (database.ClientError "AccessDeniedException") ∧
  create_table.create_table songs_manager
    (create_table.mkAws ∅ ∅ (fault_at 0 (database.ClientError "AccessDeniedException")) []) =
    (create_table.Done false,
     create_table.mkAws ∅ ∅ (fault_at 0 (database.ClientError "AccessDeniedException"))
       [create_table.Load "TBL_SONG"]).
Proof.
  split; [reflexivity|].
  apply (create_table_lookup_fails songs_manager
    (create_table.mkAws ∅ ∅ (fault_at 0 (database.ClientError "AccessDeniedException")) [])
    (database.ClientError "AccessDeniedException")); [reflexivity|discriminate].
Defined.

(** X30. The script ends with status 0 or 1, and with 0 only when the
    table it was asked for is there. *)
Theorem main_exit_status (environ : gmap string string) (a : create_table.Aws) :
  (create_table.exit_status (create_table.main environ a).1 ≤ 1)%nat ∧
  (create_table.exit_status (create_table.main environ a).1 = 0%nat →
   default "TBL_SONG" (environ !! "DYNAMODB_TABLE_NAME") ∈
     create_table.exists_ (create_table.main environ a).2).
Proof.
  unfold create_table.main, create_table.init, create_table.resource.
  destruct (send_cases
    (create_table.Resource (default "us-east-1" (environ !! "AWS_REGION"))) inr a)
    as [[e ->]|(a0 & [= <-] & ->)]; [simpl; split; [lia|done]|].
  set (a1 := create_table.mkAws _ _ _ _).
  set (self := create_table.mkManager _ _).
  destruct (create_table_returns self a1) as [b Hb].
  destruct (create_table.create_table self a1) as [o a2] eqn:Hc.
  simpl in Hb. subst o. destruct b; [|simpl; split; [lia|done]].
  apply create_table_true_exists in Hc. simpl in Hc.
  unfold create_table.describe_table.
  destruct (load_cases (create_table.table_name self) a2) as [[e ->]|[Hin ->]].
  - destruct e; simpl; (split; [lia|done]).
  - simpl. split; [lia|]. intros _. exact Hc.
Qed.

Lemma main_exit_status_witness :
  create_table.exit_status (create_table.main ∅ fresh_account).1 = 0%nat ∧
  default "TBL_SONG" ((∅ : gmap string string) !! "DYNAMODB_TABLE_NAME") ∈
    create_table.exists_ (create_table.main ∅ fresh_account).2.
Proof.
  split; [reflexivity|].
  apply (main_exit_status ∅ fresh_account). reflexivity.
Defined.
